(** * Endorphin template compiler: the code-generation scope and the
      expression tokenizer plugin

    A shallow embedding of [scope.ts] (class [CompileScope] and class
    [SymbolGenerator], in the later of the two snapshots of that file) and
    of [src/parser/expression/acorn-plugin.ts] (class [EndorphinParser]),
    with the properties the specification states about them.

    Conventions of the embedding:
    - JavaScript strings are [string]; a [SourceNode] is the list of the
      texts of its children and a [Chunk] is the text it prints as (source
      positions carried by source-map nodes are not modelled);
    - a plain object used as a dictionary is a [gmap] of its own
      properties, read through [JS.has] and [JS.get], which look at
      [Object.prototype] as the [in] operator and property access do;
      a [Map] or [Set] that is iterated is a list in insertion order;
    - JavaScript numbers used as counters are [N] (exact below 2^53);
    - a method that can raise a [TypeError] (it dereferences [this.func]
      while no function context is open) returns an [option]; every such
      method raises before it changes the scope, so [None] leaves no trace;
    - the [parent] links of [FunctionContext] and [ElementContext] are the
      tails of the lists that hold them;
    - [options.warn] is a callback of the caller: the scope records the
      calls it makes to it. *)

From Stdlib Require Import String Ascii List NArith Lia Bool.
From stdpp Require Import base option list gmap strings pretty.

Import ListNotations.

(** * JavaScript objects used as dictionaries *)

Module JS.

(** Property names every object created by [{}] inherits from
    [Object.prototype]. *)
Definition Object_prototype_keys : list string :=
  [ "constructor"; "hasOwnProperty"; "isPrototypeOf"; "propertyIsEnumerable";
    "toLocaleString"; "toString"; "valueOf"; "__proto__";
    "__defineGetter__"; "__defineSetter__";
    "__lookupGetter__"; "__lookupSetter__" ].

Definition inherited (k : string) : bool :=
  bool_decide (k ∈ Object_prototype_keys).

(** What [o[k]] evaluates to: an own property, a member found on the
    prototype, or [undefined]. *)
Inductive prop (V : Type) : Type :=
| Own (v : V)
| Proto (k : string)
| Undefined.
Arguments Own {V} v.
Arguments Proto {V} k.
Arguments Undefined {V}.

Section Dict.
Context {V : Type}.
Implicit Types (o : gmap string V) (k : string).

(** [k in o] looks through the prototype chain. *)
Definition has (k : string) (o : gmap string V) : bool :=
  bool_decide (is_Some (o !! k)) || inherited k.

(** [o[k]] *)
Definition get (k : string) (o : gmap string V) : prop V :=
  match o !! k with
  | Some v => Own v
  | None => if inherited k then Proto k else Undefined
  end.

(** [o[k] = v] for a primitive [v]: the [__proto__] setter ignores a
    value that is neither an object nor [null]. *)
Definition set (k : string) (v : V) (o : gmap string V) : gmap string V :=
  if String.eqb k "__proto__" then o else <[k:=v]> o.
End Dict.

(** [!!v] for an optional string. *)
Definition truthy (v : option string) : bool :=
  match v with
  | Some s => negb (String.eqb s "")
  | None => false
  end.

End JS.

(** * SymbolGenerator *)

(** The number kept for a name: a count, or [NaN] once [++] was applied to
    an inherited member. *)
Inductive counter : Type :=
| Num (n : N)
| NaN.

(** The [prefix] and [suffix] arguments the scope passes to
    [new SymbolGenerator(...)]. *)
Inductive SymbolPartGenerator : Type :=
| PartString (s : string)        (* a plain string *)
| numGenerator                   (* num => num *)
| scopePrefix                    (* () => `${this.scope}.$_` *)
| globalSuffix (suffix : string) (* num => suffix + num *).

Record SymbolGenerator : Type := mkSymbolGenerator {
  _symbols : gmap string counter;
  prefix : SymbolPartGenerator;
  suffix : SymbolPartGenerator
}.

Definition newSymbolGenerator (prefix suffix : SymbolPartGenerator) : SymbolGenerator :=
  {| _symbols := ∅; prefix := prefix; suffix := suffix |}.

(** [this._symbols[name]++] stores [ToNumber(old) + 1]. *)
Definition increment (old : JS.prop counter) : counter :=
  match old with
  | JS.Own (Num n) => Num (n + 1)
  | _ => NaN
  end.

(** String conversion of the value read back from [this._symbols[name]]. *)
Definition numToString (num : JS.prop counter) : string :=
  match num with
  | JS.Own (Num n) => pretty n
  | JS.Own NaN => "NaN"
  | JS.Proto k =>
      if String.eqb k "__proto__" then "[object Object]"
      else "function " +:+ k +:+ "() { [native code] }"
  | JS.Undefined => "undefined"
  end.

(** [_getPart(num, generator)], already converted to the string that the
    concatenation in [generate] makes of it. [scope] is what the [scope]
    getter of the owning [CompileScope] returns. *)
Definition _getPart (scope : string) (num : JS.prop counter)
    (generator : SymbolPartGenerator) : string :=
  match generator with
  | PartString s => s
  | numGenerator => numToString num
  | scopePrefix => scope +:+ ".$_"
  | globalSuffix suffix => suffix +:+ numToString num
  end.

(** The table after the [if (name in this._symbols) ... else ...] of
    [generate]. *)
Definition bump (name : string) (symbols : gmap string counter) : gmap string counter :=
  if JS.has name symbols
  then JS.set name (increment (JS.get name symbols)) symbols
  else JS.set name (Num 0) symbols.

(** [generate(name)]: the number read back, the symbol and the generator
    afterwards. *)
Definition generate_num (name : string) (g : SymbolGenerator) : JS.prop counter :=
  JS.get name (bump name (_symbols g)).

Definition generate (scope : string) (name : string) (g : SymbolGenerator)
    : string * SymbolGenerator :=
  let symbols := bump name (_symbols g) in
  let num := JS.get name symbols in
  (_getPart scope num (prefix g) +:+ name +:+ _getPart scope num (suffix g),
   {| _symbols := symbols; prefix := prefix g; suffix := suffix g |}).

(** * Collaborators that are not part of the scope

    [./utils] supplies the text helpers below; the scope only calls them.
    The properties proved about the scope hold for every implementation. *)

Class Utils : Type := {
  (** [tagToJS(name, capitalize)] *)
  tagToJS : string → bool → string;
  (** [format(chunks, indent)], as the text of the node it returns *)
  format : list string → string → string;
  (** [qStr(value)]; the scope also applies it to what a dictionary lookup
      returned *)
  qStr : JS.prop string → string;
  (** [isIdentifier(name)] *)
  isIdentifier : string → bool;
  (** [propAccessor(name)] *)
  propAccessor : string → string;
  (** [reverseObject(helpers)]: from module URL -> names to name -> URL *)
  reverseObject : list (string * list string) → gmap string string
}.

(** Characters that string literals cannot hold directly. *)
Definition nl : string := String (ascii_of_N 10) "".
Definition tab : string := String (ascii_of_N 9) "".
Definition dq : string := String (ascii_of_N 34) "".

(** * Source nodes *)

(** A [SourceNode] by the texts of its children; a [Chunk] by its text. *)
Definition Chunk : Type := string.
Definition ChunkList : Type := list Chunk.
Definition SourceNode : Type := list string.

(** [node.add(chunk)] for a string chunk: an empty string is not pushed. *)
Definition add (chunk : string) (node : SourceNode) : SourceNode :=
  if String.eqb chunk "" then node else node ++ [chunk].

(** [node.add(child)] for a [SourceNode] child: pushed as it is. *)
Definition addNode (child : SourceNode) (node : SourceNode) : SourceNode :=
  node ++ [String.concat "" child].

(** [node.add([c1, ..., cn])] for an array of string chunks. *)
Definition addAll (chunks : list string) (node : SourceNode) : SourceNode :=
  foldl (λ n c, add c n) node chunks.

(** [node.toString()] *)
Definition toString (node : SourceNode) : string := String.concat "" node.

(** [list.join(sep)] *)
Definition join (sep : string) (l : list string) : string := String.concat sep l.

(** * Insertion-ordered [Map] and [Set] *)

Section JSMap.
Context {V : Type}.

Fixpoint map_get (k : string) (m : list (string * V)) : option V :=
  match m with
  | [] => None
  | (k', v) :: m' => if String.eqb k' k then Some v else map_get k m'
  end.

Definition map_has (k : string) (m : list (string * V)) : bool :=
  match map_get k m with Some _ => true | None => false end.

(** [m.set(k, v)]: an existing key keeps its place. *)
Fixpoint map_set (k : string) (v : V) (m : list (string * V)) : list (string * V) :=
  match m with
  | [] => [(k, v)]
  | (k', v') :: m' =>
      if String.eqb k' k then (k, v) :: m' else (k', v') :: map_set k v m'
  end.
End JSMap.

(** [s.add(x)] on a [Set]. *)
Definition set_add {A} `{EqDecision A} (x : A) (s : list A) : list A :=
  if bool_decide (x ∈ s) then s else s ++ [x].

(** * The data model of [scope.ts] *)

Module RuntimeSymbols.
(** [enum RuntimeSymbols] *)
Inductive t : Type :=
| get | mountBlock | updateBlock | mountIterator | updateIterator
| mountKeyIterator | updateKeyIterator | createInjector | block
| setAttribute | addClass | finalizeAttributes | addEvent | addStaticEvent
| finalizeEvents | mountSlot | setRef | setStaticRef | finalizeRefs
| createComponent | mountComponent | updateComponent | mountInnerHTML
| updateInnerHTML | mountPartial | updatePartial | elem | elemWithText
| elemNS | elemNSWithText | text | updateText | filter | insert
| subscribeStore.

Global Instance eq_dec : EqDecision t.
Proof. solve_decision. Defined.

(** [RuntimeSymbols[symbol]]: the reverse mapping of the enum. *)
Definition name (symbol : t) : string :=
  match symbol with
  | get => "get" | mountBlock => "mountBlock" | updateBlock => "updateBlock"
  | mountIterator => "mountIterator" | updateIterator => "updateIterator"
  | mountKeyIterator => "mountKeyIterator"
  | updateKeyIterator => "updateKeyIterator"
  | createInjector => "createInjector" | block => "block"
  | setAttribute => "setAttribute" | addClass => "addClass"
  | finalizeAttributes => "finalizeAttributes" | addEvent => "addEvent"
  | addStaticEvent => "addStaticEvent" | finalizeEvents => "finalizeEvents"
  | mountSlot => "mountSlot" | setRef => "setRef"
  | setStaticRef => "setStaticRef" | finalizeRefs => "finalizeRefs"
  | createComponent => "createComponent" | mountComponent => "mountComponent"
  | updateComponent => "updateComponent" | mountInnerHTML => "mountInnerHTML"
  | updateInnerHTML => "updateInnerHTML" | mountPartial => "mountPartial"
  | updatePartial => "updatePartial" | elem => "elem"
  | elemWithText => "elemWithText" | elemNS => "elemNS"
  | elemNSWithText => "elemNSWithText" | text => "text"
  | updateText => "updateText" | filter => "filter" | insert => "insert"
  | subscribeStore => "subscribeStore"
  end.
End RuntimeSymbols.

Module Options.
(** [CompileScopeOptions] as the caller passes it: every key is
    optional, [None] is a key that is not set. [warn] tells whether a
    callback is configured. *)
Record user : Type := {
  u_module : option string;
  u_host : option string;
  u_scope : option string;
  u_partials : option string;
  u_cssScope : option string;
  u_helpers : option (list (string * list string));
  u_component : option string;
  u_indent : option string;
  u_prefix : option string;
  u_suffix : option string;
  u_removeUnusedImports : option bool;
  u_warn : bool
}.

(** [this.options]: the caller's options over [defaultOptions]. *)
Record t : Type := {
  module : string;
  host : string;
  scope : string;
  partials : string;
  cssScope : option string;
  helpers : list (string * list string);
  component : string;
  indent : string;
  prefix : string;
  suffix : string;
  removeUnusedImports : bool;
  warn : bool
}.

(** [defaultOptions], the only module-level object of [scope.ts]. *)
Definition defaultOptions : t := {|
  host := "host";
  scope := "scope";
  partials := "partials";
  indent := tab;
  prefix := "$$";
  suffix := "";
  module := "@endorphinjs/endorphin";
  component := "";
  helpers := [("endorphin/helpers.js", ["emit"; "setState"; "setStore"])];
  cssScope := None;
  removeUnusedImports := false;
  warn := false
|}.

(** [Object.assign({}, defaults, options)] *)
Definition assign (defaults : t) (options : user) : t := {|
  module := default (module defaults) (u_module options);
  host := default (host defaults) (u_host options);
  scope := default (scope defaults) (u_scope options);
  partials := default (partials defaults) (u_partials options);
  cssScope := from_option Some (cssScope defaults) (u_cssScope options);
  helpers := default (helpers defaults) (u_helpers options);
  component := default (component defaults) (u_component options);
  indent := default (indent defaults) (u_indent options);
  prefix := default (prefix defaults) (u_prefix options);
  suffix := default (suffix defaults) (u_suffix options);
  removeUnusedImports :=
    default (removeUnusedImports defaults) (u_removeUnusedImports options);
  warn := u_warn options || warn defaults
|}.

Definition no_options : user := {|
  u_module := None; u_host := None; u_scope := None; u_partials := None;
  u_cssScope := None; u_helpers := None; u_component := None;
  u_indent := None; u_prefix := None; u_suffix := None;
  u_removeUnusedImports := None; u_warn := false
|}.
End Options.

(** [ElementStats] of [./node-stats], as far as the scope reads it; both
    flags by their truthiness. *)
Record ElementStats : Type := {
  staticContent : bool;
  slotContent : bool
}.

Module ElementContext.
(** An [ElementContext] of [./element-context] by the arguments the scope
    constructs it from; its [parent] is the rest of the list it is in. *)
Record t : Type := {
  name : string;
  expr : Chunk;
  stats : ElementStats;
  isComponent : bool
}.
End ElementContext.

Module FunctionContext.
Record t : Type := {
  update : ChunkList;
  localSymbols : SymbolGenerator;
  updateSymbols : SymbolGenerator;
  updateDeclarations : gmap string string;
  symbol : string;
  output : SourceNode;
  injector : option string;
  scopeArg : SourceNode;
  (** [element] and its [parent] chain; [[]] is [undefined] *)
  element : list ElementContext.t
}.

Definition set_update (v : ChunkList) (f : t) : t :=
  {| update := v; localSymbols := localSymbols f;
     updateSymbols := updateSymbols f;
     updateDeclarations := updateDeclarations f; symbol := symbol f;
     output := output f; injector := injector f; scopeArg := scopeArg f;
     element := element f |}.
Definition set_localSymbols (v : SymbolGenerator) (f : t) : t :=
  {| update := update f; localSymbols := v;
     updateSymbols := updateSymbols f;
     updateDeclarations := updateDeclarations f; symbol := symbol f;
     output := output f; injector := injector f; scopeArg := scopeArg f;
     element := element f |}.
Definition set_updateSymbols (v : SymbolGenerator) (f : t) : t :=
  {| update := update f; localSymbols := localSymbols f;
     updateSymbols := v;
     updateDeclarations := updateDeclarations f; symbol := symbol f;
     output := output f; injector := injector f; scopeArg := scopeArg f;
     element := element f |}.
Definition set_updateDeclarations (v : gmap string string) (f : t) : t :=
  {| update := update f; localSymbols := localSymbols f;
     updateSymbols := updateSymbols f;
     updateDeclarations := v; symbol := symbol f;
     output := output f; injector := injector f; scopeArg := scopeArg f;
     element := element f |}.
Definition set_scopeArg (v : SourceNode) (f : t) : t :=
  {| update := update f; localSymbols := localSymbols f;
     updateSymbols := updateSymbols f;
     updateDeclarations := updateDeclarations f; symbol := symbol f;
     output := output f; injector := injector f; scopeArg := v;
     element := element f |}.
Definition set_element (v : list ElementContext.t) (f : t) : t :=
  {| update := update f; localSymbols := localSymbols f;
     updateSymbols := updateSymbols f;
     updateDeclarations := updateDeclarations f; symbol := symbol f;
     output := output f; injector := injector f; scopeArg := scopeArg f;
     element := v |}.
End FunctionContext.

Module PartialDeclaration.
Record t : Type := { name : string; defaults : Chunk }.
End PartialDeclaration.

Module ComponentImport.
(** [node] by the position [node.loc.start.pos] the scope reads from it;
    [used] by its truthiness. *)
Record t : Type := {
  symbol : string;
  href : string;
  node : N;
  used : bool
}.
Definition set_used (v : bool) (c : t) : t :=
  {| symbol := symbol c; href := href c; node := node c; used := v |}.
End ComponentImport.

Module CompileScope.

(** The fields of [class CompileScope]. [warnings] is not a field: it is
    the list of the calls made to the callback [options.warn], oldest
    first, the only effect of the scope outside itself. *)
Record t : Type := {
  runtimeSymbols : list RuntimeSymbols.t;
  usedHelpers : list string;
  scopeSymbols : SymbolGenerator;
  globalSymbols : SymbolGenerator;
  (** [func] and its [parent] chain; [[]] is [undefined] *)
  func : list FunctionContext.t;
  options : Options.t;
  body : list SourceNode;
  partialsMap : list (string * PartialDeclaration.t);
  componentsMap : list (string * ComponentImport.t);
  namespacesMap : list (string * string);
  namespaceStack : list string;
  usedStore : list string;
  helpers : gmap string string;
  _warned : gset string;
  warnings : list (string * N)
}.

Definition set_runtimeSymbols (v : list RuntimeSymbols.t) (s : t) : t :=
  {| runtimeSymbols := v; usedHelpers := usedHelpers s;
     scopeSymbols := scopeSymbols s; globalSymbols := globalSymbols s;
     func := func s; options := options s; body := body s;
     partialsMap := partialsMap s; componentsMap := componentsMap s;
     namespacesMap := namespacesMap s; namespaceStack := namespaceStack s;
     usedStore := usedStore s; helpers := helpers s; _warned := _warned s;
     warnings := warnings s |}.
Definition set_usedHelpers (v : list string) (s : t) : t :=
  {| runtimeSymbols := runtimeSymbols s; usedHelpers := v;
     scopeSymbols := scopeSymbols s; globalSymbols := globalSymbols s;
     func := func s; options := options s; body := body s;
     partialsMap := partialsMap s; componentsMap := componentsMap s;
     namespacesMap := namespacesMap s; namespaceStack := namespaceStack s;
     usedStore := usedStore s; helpers := helpers s; _warned := _warned s;
     warnings := warnings s |}.
Definition set_scopeSymbols (v : SymbolGenerator) (s : t) : t :=
  {| runtimeSymbols := runtimeSymbols s; usedHelpers := usedHelpers s;
     scopeSymbols := v; globalSymbols := globalSymbols s;
     func := func s; options := options s; body := body s;
     partialsMap := partialsMap s; componentsMap := componentsMap s;
     namespacesMap := namespacesMap s; namespaceStack := namespaceStack s;
     usedStore := usedStore s; helpers := helpers s; _warned := _warned s;
     warnings := warnings s |}.
Definition set_globalSymbols (v : SymbolGenerator) (s : t) : t :=
  {| runtimeSymbols := runtimeSymbols s; usedHelpers := usedHelpers s;
     scopeSymbols := scopeSymbols s; globalSymbols := v;
     func := func s; options := options s; body := body s;
     partialsMap := partialsMap s; componentsMap := componentsMap s;
     namespacesMap := namespacesMap s; namespaceStack := namespaceStack s;
     usedStore := usedStore s; helpers := helpers s; _warned := _warned s;
     warnings := warnings s |}.
Definition set_func (v : list FunctionContext.t) (s : t) : t :=
  {| runtimeSymbols := runtimeSymbols s; usedHelpers := usedHelpers s;
     scopeSymbols := scopeSymbols s; globalSymbols := globalSymbols s;
     func := v; options := options s; body := body s;
     partialsMap := partialsMap s; componentsMap := componentsMap s;
     namespacesMap := namespacesMap s; namespaceStack := namespaceStack s;
     usedStore := usedStore s; helpers := helpers s; _warned := _warned s;
     warnings := warnings s |}.
Definition set_body (v : list SourceNode) (s : t) : t :=
  {| runtimeSymbols := runtimeSymbols s; usedHelpers := usedHelpers s;
     scopeSymbols := scopeSymbols s; globalSymbols := globalSymbols s;
     func := func s; options := options s; body := v;
     partialsMap := partialsMap s; componentsMap := componentsMap s;
     namespacesMap := namespacesMap s; namespaceStack := namespaceStack s;
     usedStore := usedStore s; helpers := helpers s; _warned := _warned s;
     warnings := warnings s |}.
Definition set_partialsMap (v : list (string * PartialDeclaration.t)) (s : t) : t :=
  {| runtimeSymbols := runtimeSymbols s; usedHelpers := usedHelpers s;
     scopeSymbols := scopeSymbols s; globalSymbols := globalSymbols s;
     func := func s; options := options s; body := body s;
     partialsMap := v; componentsMap := componentsMap s;
     namespacesMap := namespacesMap s; namespaceStack := namespaceStack s;
     usedStore := usedStore s; helpers := helpers s; _warned := _warned s;
     warnings := warnings s |}.
Definition set_componentsMap (v : list (string * ComponentImport.t)) (s : t) : t :=
  {| runtimeSymbols := runtimeSymbols s; usedHelpers := usedHelpers s;
     scopeSymbols := scopeSymbols s; globalSymbols := globalSymbols s;
     func := func s; options := options s; body := body s;
     partialsMap := partialsMap s; componentsMap := v;
     namespacesMap := namespacesMap s; namespaceStack := namespaceStack s;
     usedStore := usedStore s; helpers := helpers s; _warned := _warned s;
     warnings := warnings s |}.
Definition set_namespacesMap (v : list (string * string)) (s : t) : t :=
  {| runtimeSymbols := runtimeSymbols s; usedHelpers := usedHelpers s;
     scopeSymbols := scopeSymbols s; globalSymbols := globalSymbols s;
     func := func s; options := options s; body := body s;
     partialsMap := partialsMap s; componentsMap := componentsMap s;
     namespacesMap := v; namespaceStack := namespaceStack s;
     usedStore := usedStore s; helpers := helpers s; _warned := _warned s;
     warnings := warnings s |}.
Definition set_namespaceStack (v : list string) (s : t) : t :=
  {| runtimeSymbols := runtimeSymbols s; usedHelpers := usedHelpers s;
     scopeSymbols := scopeSymbols s; globalSymbols := globalSymbols s;
     func := func s; options := options s; body := body s;
     partialsMap := partialsMap s; componentsMap := componentsMap s;
     namespacesMap := namespacesMap s; namespaceStack := v;
     usedStore := usedStore s; helpers := helpers s; _warned := _warned s;
     warnings := warnings s |}.
Definition set_usedStore (v : list string) (s : t) : t :=
  {| runtimeSymbols := runtimeSymbols s; usedHelpers := usedHelpers s;
     scopeSymbols := scopeSymbols s; globalSymbols := globalSymbols s;
     func := func s; options := options s; body := body s;
     partialsMap := partialsMap s; componentsMap := componentsMap s;
     namespacesMap := namespacesMap s; namespaceStack := namespaceStack s;
     usedStore := v; helpers := helpers s; _warned := _warned s;
     warnings := warnings s |}.
Definition set__warned (v : gset string) (s : t) : t :=
  {| runtimeSymbols := runtimeSymbols s; usedHelpers := usedHelpers s;
     scopeSymbols := scopeSymbols s; globalSymbols := globalSymbols s;
     func := func s; options := options s; body := body s;
     partialsMap := partialsMap s; componentsMap := componentsMap s;
     namespacesMap := namespacesMap s; namespaceStack := namespaceStack s;
     usedStore := usedStore s; helpers := helpers s; _warned := v;
     warnings := warnings s |}.
Definition set_warnings (v : list (string * N)) (s : t) : t :=
  {| runtimeSymbols := runtimeSymbols s; usedHelpers := usedHelpers s;
     scopeSymbols := scopeSymbols s; globalSymbols := globalSymbols s;
     func := func s; options := options s; body := body s;
     partialsMap := partialsMap s; componentsMap := componentsMap s;
     namespacesMap := namespacesMap s; namespaceStack := namespaceStack s;
     usedStore := usedStore s; helpers := helpers s; _warned := _warned s;
     warnings := v |}.

(** Replaces the current function context (the object [this.func]
    points to is updated in place). *)
Definition set_current (f : FunctionContext.t) (s : t) : t :=
  match func s with
  | [] => s
  | _ :: parent => set_func (f :: parent) s
  end.

(** What [localInjector()] and [scopeInjector()] return: a property of
    the current element context, or the injector of the function. *)
Inductive injectorRef : Type :=
| ElementLocalInjector (e : ElementContext.t)
| ElementScopeInjector (e : ElementContext.t)
| FunctionInjector (injector : option string).

(** [s.includes(c)] for a one-character [c]. *)
Fixpoint includes (c : ascii) (s : string) : bool :=
  match s with
  | EmptyString => false
  | String c' s' => if Ascii.eqb c' c then true else includes c s'
  end.

Global Instance prop_eq_dec : EqDecision (JS.prop string).
Proof. solve_decision. Defined.

(** [result.has(url) ? result.get(url).push(helper) : result.set(url, [helper])] *)
Fixpoint group_add (url : JS.prop string) (helper : string)
    (result : list (JS.prop string * list string))
    : list (JS.prop string * list string) :=
  match result with
  | [] => [(url, [helper])]
  | (u, hs) :: result' =>
      if bool_decide (u = url) then (u, hs ++ [helper]) :: result'
      else (u, hs) :: group_add url helper result'
  end.

(** The function context [this.element] finds, with the parent chain of
    the element. *)
Fixpoint element_of (fs : list FunctionContext.t)
    : option (ElementContext.t * list ElementContext.t) :=
  match fs with
  | [] => None
  | f :: parent =>
      match FunctionContext.element f with
      | e :: p => Some (e, p)
      | [] => element_of parent
      end
  end.

Section Methods.
Context {U : Utils}.

(** [constructor(options)]; [defaultOptions] is the module-level object
    the constructor reads. *)
Definition constructor (defaultOptions : Options.t) (options : Options.user) : t :=
  let options := Options.assign defaultOptions options in
  let suffix := tagToJS (Options.component options) true +:+ Options.suffix options in
  {| runtimeSymbols := [];
     usedHelpers := [];
     scopeSymbols := newSymbolGenerator scopePrefix numGenerator;
     globalSymbols :=
       newSymbolGenerator (PartString (Options.prefix options)) (globalSuffix suffix);
     func := [];
     options := options;
     body := [];
     partialsMap := [];
     componentsMap := [];
     namespacesMap := [];
     namespaceStack := [];
     usedStore := [];
     helpers := reverseObject (Options.helpers options)
                ∪ reverseObject (Options.helpers defaultOptions);
     _warned := ∅;
     warnings := [] |}.

Definition markScopeAsUsed (s : t) : t :=
  match func s with
  | f :: _ =>
      if Nat.eqb (length (FunctionContext.scopeArg f)) 0
      then set_current
             (FunctionContext.set_scopeArg
                (add (", " +:+ Options.scope (options s)) (FunctionContext.scopeArg f)) f) s
      else s
  | [] => s
  end.

(** The getters. *)
Definition host (s : t) : string := Options.host (options s).
Definition scope (s : t) : string * t :=
  (Options.scope (options s), markScopeAsUsed s).
Definition module (s : t) : string := Options.module (options s).
Definition partials (s : t) : string := Options.partials (options s).
Definition indent (s : t) : string := Options.indent (options s).
Definition element (s : t) : option (ElementContext.t * list ElementContext.t) :=
  element_of (func s).
Definition namespace (s : t) : option string := last (namespaceStack s).

Definition use (symbol : RuntimeSymbols.t) (s : t) : string * t :=
  (RuntimeSymbols.name symbol,
   set_runtimeSymbols (set_add symbol (runtimeSymbols s)) s).

Definition useHelper (symbol : string) (s : t) : string * t :=
  (symbol, set_usedHelpers (set_add symbol (usedHelpers s)) s).

Definition useStore (symbol : string) (s : t) : string * t :=
  (host s +:+ ".store.data" +:+ propAccessor symbol,
   set_usedStore (set_add symbol (usedStore s)) s).

(** [scopeSymbol(name)]. The prefix of [scopeSymbols] is a closure over
    the [scope] getter, so [generate] marks the scope once more after
    it has updated its table. *)
Definition scopeSymbol (name : string) (s : t) : string * t :=
  let s := markScopeAsUsed s in
  let '(symbol, g) := generate (Options.scope (options s)) name (scopeSymbols s) in
  (symbol, markScopeAsUsed (set_scopeSymbols g s)).

Definition globalSymbol (name : string) (s : t) : string * t :=
  let '(symbol, g) := generate (Options.scope (options s)) name (globalSymbols s) in
  (symbol, set_globalSymbols g s).

Definition localSymbol (name : string) (s : t) : option (string * t) :=
  match func s with
  | [] => None
  | f :: _ =>
      let '(symbol, g) :=
        generate (Options.scope (options s)) name (FunctionContext.localSymbols f) in
      Some (symbol, set_current (FunctionContext.set_localSymbols g f) s)
  end.

Definition push (node : SourceNode) (s : t) : t :=
  set_body (body s ++ [node]) s.

Definition pushUpdate (chunk : Chunk) (s : t) : option t :=
  match func s with
  | [] => None
  | f :: _ =>
      Some (set_current
              (FunctionContext.set_update (FunctionContext.update f ++ [chunk]) f) s)
  end.

(** [updateSymbol(name, value)]; the result is whatever
    [this.func.updateDeclarations[value]] evaluates to. *)
Definition updateSymbol (name value : string) (s : t) : option (JS.prop string * t) :=
  match func s with
  | [] => None
  | f :: _ =>
      if negb (JS.has value (FunctionContext.updateDeclarations f)) then
        let '(symbol, g) :=
          generate (Options.scope (options s)) name (FunctionContext.updateSymbols f) in
        let f := FunctionContext.set_updateSymbols g f in
        let f := FunctionContext.set_updateDeclarations
                   (JS.set value symbol (FunctionContext.updateDeclarations f)) f in
        let f := FunctionContext.set_update
                   (("const " +:+ symbol +:+ " = " +:+ value +:+ ";")
                      :: FunctionContext.update f) f in
        Some (JS.get value (FunctionContext.updateDeclarations f), set_current f s)
      else
        Some (JS.get value (FunctionContext.updateDeclarations f), s)
  end.

Definition enterFunction (name : string) (injectorSymbol : option string) (s : t)
    : string * t :=
  let '(symbol, s) := globalSymbol name s in
  let ctx := {|
    FunctionContext.symbol := symbol;
    FunctionContext.localSymbols := newSymbolGenerator (PartString "") numGenerator;
    FunctionContext.updateSymbols := newSymbolGenerator (PartString "") numGenerator;
    FunctionContext.updateDeclarations := ∅;
    FunctionContext.injector := injectorSymbol;
    FunctionContext.output := [];
    FunctionContext.scopeArg := [];
    FunctionContext.update := [];
    FunctionContext.element := [] |} in
  (symbol, set_func (ctx :: func s) s).

(** The text of [args]: the host, the injector when there is one, and
    the scope argument placeholder. *)
Definition hostArgs (f : FunctionContext.t) (s : t) : string :=
  host s +:+
  (if JS.truthy (FunctionContext.injector f)
   then ", " +:+ default "" (FunctionContext.injector f) else "").

Definition exitFunction (body : ChunkList) (s : t) : option (SourceNode * t) :=
  match func s with
  | [] => None
  | f :: parent =>
      let indent := indent s in
      let symbol := FunctionContext.symbol f in
      let addArgs (output : SourceNode) :=
        addNode (FunctionContext.scopeArg f) (add (hostArgs f s) output) in
      let output := add ("function " +:+ symbol +:+ "(") [] in
      let output := addArgs output in
      let output := add (") {" +:+ nl +:+ indent) output in
      let output := add (format body indent) output in
      let output :=
        if negb (Nat.eqb (length (FunctionContext.update f)) 0) then
          let updateSymbol := symbol +:+ "Update" in
          let output :=
            add (nl +:+ indent +:+ "return " +:+ updateSymbol +:+ ";" +:+ nl
                  +:+ "}" +:+ nl +:+ nl) output in
          let output := add ("function " +:+ updateSymbol +:+ "(") output in
          let output := addArgs output in
          let output := add (") {" +:+ nl +:+ indent) output in
          let output := add (format (FunctionContext.update f) indent) output in
          add (nl +:+ "}") output
        else
          add (nl +:+ "}") output in
      Some (output, set_func parent s)
  end.

Definition isComponent (tagName : string) (s : t) : bool :=
  map_has tagName (componentsMap s).

(** [enterElement(name, expr, stats)]; the context returned stands for
    its [output] node. *)
Definition enterElement (name : string) (expr : Chunk) (stats : ElementStats) (s : t)
    : option (ElementContext.t * t) :=
  let ctx := {|
    ElementContext.name := name;
    ElementContext.expr := expr;
    ElementContext.stats := stats;
    ElementContext.isComponent := isComponent name s |} in
  match func s with
  | [] => None
  | f :: _ =>
      Some (ctx,
            set_current
              (FunctionContext.set_element (ctx :: FunctionContext.element f) f) s)
  end.

(** [exitElement()]; the context returned stands for the node its
    [finalize()] produced. *)
Definition exitElement (s : t) : option (ElementContext.t * t) :=
  match element s, func s with
  | Some (e, parent), f :: _ =>
      Some (e, set_current (FunctionContext.set_element parent f) s)
  | _, _ => None
  end.

Definition enterNamespace (uri : string) (s : t) : t :=
  let '(symbol, s) :=
    match map_get uri (namespacesMap s) with
    | Some symbol => (symbol, s)
    | None =>
        let '(symbol, s) := globalSymbol "ns" s in
        (symbol, set_namespacesMap (map_set uri symbol (namespacesMap s)) s)
    end in
  set_namespaceStack (namespaceStack s ++ [symbol]) s.

Definition exitNamespace (s : t) : t :=
  set_namespaceStack (removelast (namespaceStack s)) s.

Definition inComponent (s : t) : bool :=
  match element s with
  | Some (elem, _) => isComponent (ElementContext.name elem) s
  | None => false
  end.

Definition requiresInjector (s : t) : option bool :=
  match func s with
  | [] => None
  | f :: _ =>
      match FunctionContext.element f with
      | element :: _ =>
          Some (inComponent s
                || negb (staticContent (ElementContext.stats element))
                || slotContent (ElementContext.stats element))
      | [] => Some (JS.truthy (FunctionContext.injector f))
      end
  end.

Definition localInjector (s : t) : option injectorRef :=
  match func s with
  | [] => None
  | f :: _ =>
      match FunctionContext.element f with
      | element :: _ => Some (ElementLocalInjector element)
      | [] => Some (FunctionInjector (FunctionContext.injector f))
      end
  end.

Definition scopeInjector (s : t) : option (injectorRef * t) :=
  match func s with
  | [] => None
  | f :: _ =>
      match FunctionContext.element f with
      | element :: _ => Some (ElementScopeInjector element, markScopeAsUsed s)
      | [] => Some (FunctionInjector (FunctionContext.injector f), s)
      end
  end.

Definition warn (msg : string) (pos : N) (s : t) : t :=
  if Options.warn (options s) then set_warnings (warnings s ++ [(msg, pos)]) s
  else s.

(** [checkComponent(node)], with [node.name.name] and
    [node.loc.start.pos]. *)
Definition checkComponent (tagName : string) (pos : N) (s : t) : t :=
  match map_get tagName (componentsMap s) with
  | Some data =>
      set_componentsMap
        (map_set tagName (ComponentImport.set_used true data) (componentsMap s)) s
  | None =>
      if includes "-" tagName && negb (bool_decide (tagName ∈ _warned s)) then
        warn ("Missing component definition for <" +:+ tagName
              +:+ ">, did you forgot to <link rel=" +:+ dq +:+ "import" +:+ dq
              +:+ "> it?") pos
          (set__warned ({[tagName]} ∪ _warned s) s)
      else s
  end.

Definition getHelpersMap (s : t) : list (JS.prop string * list string) :=
  foldl (λ result helper, group_add (JS.get helper (helpers s)) helper result)
    [] (usedHelpers s).

(** The line [compile] emits for one component import. *)
Definition importLine (item : ComponentImport.t) : string :=
  "import * as " +:+ ComponentImport.symbol item +:+ " from "
  +:+ qStr (JS.Own (ComponentImport.href item)) +:+ ";" +:+ nl.

(** The callback of [this.componentsMap.forEach] in [compile]. *)
Definition compileImport (removeUnused : bool) (acc : SourceNode * t)
    (entry : string * ComponentImport.t) : SourceNode * t :=
  let '(body, s) := acc in
  let '(name, item) := entry in
  if negb (ComponentImport.used item) then
    let s := warn ("Unused import " +:+ dq +:+ name +:+ dq
                   +:+ (if removeUnused then ", skipping" else ""))
               (ComponentImport.node item) s in
    if removeUnused then (body, s) else (add (importLine item) body, s)
  else (add (importLine item) body, s).

(** The callback of [this.partialsMap.forEach] in [compile]; [count] is
    the number of entries already written. *)
Definition compilePartial (s : t) (acc : nat * SourceNode)
    (entry : string * PartialDeclaration.t) : nat * SourceNode :=
  let '(count, body) := acc in
  let '(name, partial) := entry in
  let innerIndent := indent s +:+ indent s in
  let body := if Nat.eqb count 0 then body else add ("," +:+ nl) body in
  (S count,
   addAll [ nl +:+ indent s;
            if isIdentifier name then name else qStr (JS.Own name);
            ": {" +:+ nl;
            innerIndent +:+ "body: " +:+ PartialDeclaration.name partial +:+ "," +:+ nl;
            innerIndent +:+ "defaults: ";
            PartialDeclaration.defaults partial;
            nl;
            indent s +:+ "}" ] body).

(** [compile()], the runtime import: [if (this.runtimeSymbols.size) ...] *)
Definition compileRuntime (s : t) (body : SourceNode) : SourceNode :=
  if negb (Nat.eqb (length (runtimeSymbols s)) 0)
  then add ("import { " +:+ join ", " (map RuntimeSymbols.name (runtimeSymbols s))
            +:+ " } from " +:+ dq +:+ Options.module (options s) +:+ dq
            +:+ ";" +:+ nl) body
  else body.

(** [compile()], the child components: [if (this.componentsMap.size) ...] *)
Definition compileComponents (s : t) (body : SourceNode) : SourceNode * t :=
  if negb (Nat.eqb (length (componentsMap s)) 0)
  then foldl (compileImport (Options.removeUnusedImports (options s)))
         (body, s) (componentsMap s)
  else (body, s).

(** [compile()], the helpers: [this.getHelpersMap().forEach(...)] *)
Definition compileHelpers (s : t) (body : SourceNode) : SourceNode :=
  foldl (λ body '(url, helpers),
           add ("import { " +:+ join ", " helpers +:+ " } from " +:+ qStr url
                +:+ ";" +:+ nl) body)
    body (getHelpersMap s).

(** [compile()], CSS scoping: [if (this.options.cssScope) ...] *)
Definition compileCssScope (s : t) (body : SourceNode) : SourceNode :=
  if JS.truthy (Options.cssScope (options s))
  then add (nl +:+ "export const cssScope = "
            +:+ qStr (JS.Own (default "" (Options.cssScope (options s))))
            +:+ ";" +:+ nl) body
  else body.

(** [compile()], the partials: [if (this.partialsMap.size) ...] *)
Definition compilePartials (s : t) (body : SourceNode) : SourceNode :=
  if negb (Nat.eqb (length (partialsMap s)) 0)
  then
    let body := add (nl +:+ "export const " +:+ partials s +:+ " = {") body in
    let body := snd (foldl (compilePartial s) (0%nat, body) (partialsMap s)) in
    add (nl +:+ "};" +:+ nl) body
  else body.

(** [compile()], the namespaces: [this.namespacesMap.forEach(...)] *)
Definition compileNamespaces (s : t) (body : SourceNode) : SourceNode :=
  foldl (λ body '(uri, symbol),
           add ("const " +:+ symbol +:+ " = " +:+ qStr (JS.Own uri) +:+ ";" +:+ nl) body)
    body (namespacesMap s).

(** [compile()], the generated functions: [this.body.forEach(...)] *)
Definition compileBody (s : t) (body : SourceNode) : SourceNode :=
  foldl (λ body chunk, add nl (addNode chunk (add nl body))) body (CompileScope.body s).

(** [compile()] behind the component imports. *)
Definition compileRest (s : t) (body : SourceNode) : SourceNode :=
  compileBody s
    (compileNamespaces s
       (compilePartials s (compileCssScope s (compileHelpers s body)))).

(** [compile()]: the assembled node, and the scope with the warnings
    it delivered. *)
Definition compile (s : t) : SourceNode * t :=
  let body := compileRuntime s [] in
  let '(body, s) := compileComponents s body in
  (compileRest s body, s).

End Methods.
End CompileScope.

Module EarlierScope.
(** [requiresInjector()] as the earlier snapshot [src/codegen/scope.ts]
    has it: the nearest element of the function chain, and of it the
    static flag only. *)
Definition requiresInjector (s : CompileScope.t) : option bool :=
  match CompileScope.element s with
  | Some (element, _) => Some (negb (staticContent (ElementContext.stats element)))
  | None =>
      match CompileScope.func s with
      | [] => None
      | f :: _ => Some (JS.truthy (FunctionContext.injector f))
      end
  end.
End EarlierScope.

(** * Call sequences

    The code generator drives one scope through a sequence of calls; calls
    that [ElementContext] makes back into the scope are entries of the same
    sequence. *)

Inductive call : Type :=
| Use (symbol : RuntimeSymbols.t)
| UseHelper (symbol : string)
| UseStore (symbol : string)
| GetScope
| ScopeSymbol (name : string)
| GlobalSymbol (name : string)
| LocalSymbol (name : string)
| Push (node : SourceNode)
| PushUpdate (chunk : Chunk)
| UpdateSymbol (name value : string)
| EnterFunction (name : string) (injectorSymbol : option string)
| ExitFunction (body : ChunkList)
| EnterElement (name : string) (expr : Chunk) (stats : ElementStats)
| ExitElement
| EnterNamespace (uri : string)
| ExitNamespace
| RequiresInjector
| LocalInjector
| ScopeInjector
| IsComponent (tagName : string)
| CheckComponent (tagName : string) (pos : N)
| InComponent
| MarkScopeAsUsed
| Warn (msg : string) (pos : N)
| Compile
(** [scope.componentsMap.set(name, { symbol, href, node })] and
    [scope.partialsMap.set(name, partial)], done by the code that handles
    imports and partials on the public maps. *)
| ComponentsMapSet (name symbol href : string) (pos : N)
| PartialsMapSet (name : string) (partial : PartialDeclaration.t).

(** What a call returns. *)
Inductive value : Type :=
| VUndefined
| VString (s : string)
| VBool (b : bool)
| VProp (p : JS.prop string)
| VNode (n : SourceNode)
| VElement (e : ElementContext.t)
| VInjector (i : CompileScope.injectorRef).

Section Run.
Context {U : Utils}.
Import CompileScope.

Definition ret {A} (f : A → value) (r : A * CompileScope.t) : option (value * CompileScope.t) :=
  Some (f (fst r), snd r).

(** One call; [None] when it raises. *)
Definition step (c : call) (s : CompileScope.t) : option (value * CompileScope.t) :=
  match c with
  | Use symbol => ret VString (use symbol s)
  | UseHelper symbol => ret VString (useHelper symbol s)
  | UseStore symbol => ret VString (useStore symbol s)
  | GetScope => ret VString (scope s)
  | ScopeSymbol name => ret VString (scopeSymbol name s)
  | GlobalSymbol name => ret VString (globalSymbol name s)
  | LocalSymbol name => localSymbol name s ≫= ret VString
  | Push node => Some (VUndefined, push node s)
  | PushUpdate chunk => s' ← pushUpdate chunk s; Some (VUndefined, s')
  | UpdateSymbol name v => updateSymbol name v s ≫= ret VProp
  | EnterFunction name injectorSymbol => ret VString (enterFunction name injectorSymbol s)
  | ExitFunction body => exitFunction body s ≫= ret VNode
  | EnterElement name expr stats => enterElement name expr stats s ≫= ret VElement
  | ExitElement => exitElement s ≫= ret VElement
  | EnterNamespace uri => Some (VUndefined, enterNamespace uri s)
  | ExitNamespace => Some (VUndefined, exitNamespace s)
  | RequiresInjector => b ← requiresInjector s; Some (VBool b, s)
  | LocalInjector => i ← localInjector s; Some (VInjector i, s)
  | ScopeInjector => scopeInjector s ≫= ret VInjector
  | IsComponent tagName => Some (VBool (isComponent tagName s), s)
  | CheckComponent tagName pos => Some (VUndefined, checkComponent tagName pos s)
  | InComponent => Some (VBool (inComponent s), s)
  | MarkScopeAsUsed => Some (VUndefined, markScopeAsUsed s)
  | Warn msg pos => Some (VUndefined, warn msg pos s)
  | Compile => ret VNode (compile s)
  | ComponentsMapSet name symbol href pos =>
      Some (VUndefined,
            set_componentsMap
              (map_set name
                 {| ComponentImport.symbol := symbol; ComponentImport.href := href;
                    ComponentImport.node := pos; ComponentImport.used := false |}
                 (componentsMap s)) s)
  | PartialsMapSet name partial =>
      Some (VUndefined, set_partialsMap (map_set name partial (partialsMap s)) s)
  end.

(** A sequence of calls: the values returned, oldest first, and the scope
    afterwards; [None] when one of the calls raises, which aborts the
    compilation. *)
Fixpoint run (cs : list call) (s : CompileScope.t)
    : option (list value * CompileScope.t) :=
  match cs with
  | [] => Some ([], s)
  | c :: cs =>
      '(v, s) ← step c s;
      '(vs, s) ← run cs s;
      Some (v :: vs, s)
  end.

(** The scope after a sequence of calls. *)
Definition exec (cs : list call) (s : CompileScope.t) : option CompileScope.t :=
  snd <$> run cs s.
End Run.

(** * An implementation of the helpers for the examples

    [./utils] is not part of the sources at hand. This instance agrees with
    the fixtures ([$$template0] for the default component name, statements
    one per line behind the indentation, double-quoted strings) and is used
    only to evaluate the scope on concrete call sequences. *)

Definition fixtureUtils : Utils := {|
  tagToJS := λ name _, name;
  format := λ chunks indent, join (nl +:+ indent) chunks;
  qStr := λ v, match v with
               | JS.Own s => dq +:+ s +:+ dq
               | _ => "undefined"
               end;
  isIdentifier := λ name, negb (CompileScope.includes "-" name);
  propAccessor := λ name, "." +:+ name;
  reverseObject := λ helpers,
    foldl (λ o '(url, names), foldl (λ o name, JS.set name url o) o names) ∅ helpers
|}.

Definition fresh : CompileScope.t :=
  CompileScope.constructor (U := fixtureUtils) Options.defaultOptions Options.no_options.

(** The same with a [warn] callback configured. *)
Definition warnOptions : Options.user := {|
  Options.u_module := None; Options.u_host := None; Options.u_scope := None;
  Options.u_partials := None; Options.u_cssScope := None;
  Options.u_helpers := None; Options.u_component := None;
  Options.u_indent := None; Options.u_prefix := None; Options.u_suffix := None;
  Options.u_removeUnusedImports := None; Options.u_warn := true
|}.

Definition freshWarn : CompileScope.t :=
  CompileScope.constructor (U := fixtureUtils) Options.defaultOptions warnOptions.

(** * The expression tokenizer plugin *)

Module EndorphinParser.

(** [isIdentifierStart] and [isIdentifierChar] of acorn, on the code
    units a [string] holds (below 256): the ASCII tests as acorn writes
    them, then its tables for U+00AA..U+00FF. *)
Definition nonASCIIidentifierStart (code : N) : bool :=
  (code =? 170)%N || (code =? 181)%N || (code =? 186)%N
  || ((192 <=? code)%N && (code <=? 214)%N)
  || ((216 <=? code)%N && (code <=? 246)%N)
  || ((248 <=? code)%N && (code <=? 255)%N).

Definition nonASCIIidentifier (code : N) : bool :=
  nonASCIIidentifierStart code || (code =? 183)%N.

Definition isIdentifierStart (code : N) : bool :=
  if (code <? 65)%N then (code =? 36)%N
  else if (code <? 91)%N then true
  else if (code <? 97)%N then (code =? 95)%N
  else if (code <? 123)%N then true
  else (170 <=? code)%N && nonASCIIidentifierStart code.

Definition isIdentifierChar (code : N) : bool :=
  if (code <? 48)%N then (code =? 36)%N
  else if (code <? 58)%N then true
  else if (code <? 65)%N then false
  else if (code <? 91)%N then true
  else if (code <? 97)%N then (code =? 95)%N
  else if (code <? 123)%N then true
  else (170 <=? code)%N && nonASCIIidentifier code.

(** The parser state the plugin touches. *)
Record t : Type := { input : string; pos : nat }.

(** What [readToken] does: it finishes a [tokTypes.name] token with the
    given value and leaves the parser at [after], or it hands the code
    to the tokenizer of acorn ([super.readToken(code)]). *)
Inductive outcome : Type :=
| Name (value : string) (after : t)
| Super (code : N).

(** [input.charCodeAt(i)]; [None] is the [NaN] past the end. *)
Definition charCodeAt (i : nat) (input : string) : option N :=
  N_of_ascii <$> String.get i input.

(** The test of the [do ... while] loop on [ch]. *)
Definition continues (ch : option N) : bool :=
  match ch with
  | Some ch => isIdentifierChar ch || (ch =? 45)%N
  | None => false
  end.

(** The loop [do { ch = input.charCodeAt(++pos) } while (...)]: [rest] is
    the input behind [pos], the result the position the loop stops at. *)
Fixpoint scan (rest : string) (pos : nat) : nat :=
  match rest with
  | EmptyString => S pos
  | String c rest' =>
      if continues (Some (N_of_ascii c)) then scan rest' (S pos) else S pos
  end.

(** [input.slice(start, end)] for [start <= end]. *)
Definition slice (start end_ : nat) (input : string) : string :=
  String.substring start (end_ - start) input.

(** The input behind position [pos]. *)
Fixpoint behind (pos : nat) (input : string) {struct input} : string :=
  match input with
  | EmptyString => EmptyString
  | String _ rest =>
      match pos with
      | O => rest
      | S pos' => behind pos' rest
      end
  end.

Definition end_readWord (p : t) : outcome :=
  let start := pos p in
  let pos := scan (behind start (input p)) start in
  Name (slice start pos (input p)) {| input := input p; pos := pos |}.

Definition readToken (code : N) (p : t) : outcome :=
  if isIdentifierStart code || (code =? 35)%N || (code =? 64)%N
  then end_readWord p
  else Super code.

(** How acorn's [nextToken] calls [readToken] at the start of a token,
    for a position inside the input. *)
Definition readTokenAt (p : t) : option outcome :=
  code ← charCodeAt (pos p) (input p); Some (readToken code p).


End EndorphinParser.


(** * Vocabulary of the properties *)

(** The function nesting after a call sequence that starts [d] levels
    inside some function context: [None] when the sequence exits that
    function context. *)
Fixpoint depth_after (d : nat) (cs : list call) : option nat :=
  match cs with
  | [] => Some d
  | EnterFunction _ _ :: cs => depth_after (S d) cs
  | ExitFunction _ :: cs =>
      match d with
      | O => None
      | S d => depth_after d cs
      end
  | _ :: cs => depth_after d cs
  end.

(** The calls that reach [markScopeAsUsed]. *)
Definition marks (c : call) : bool :=
  match c with
  | GetScope | ScopeSymbol _ | ScopeInjector | MarkScopeAsUsed => true
  | _ => false
  end.

(** No call of the sequence made at nesting 0 reaches [markScopeAsUsed]. *)
Fixpoint unmarked (d : nat) (cs : list call) : bool :=
  match cs with
  | [] => true
  | c :: cs =>
      (if Nat.eqb d 0 then negb (marks c) else true)
      && match c with
         | EnterFunction _ _ => unmarked (S d) cs
         | ExitFunction _ => unmarked (pred d) cs
         | _ => unmarked d cs
         end
  end.

(** [this.func.element]: the element context the current function context
    has open itself. *)
Definition currentElement (s : CompileScope.t) : option ElementContext.t :=
  match CompileScope.func s with
  | f :: _ => head (FunctionContext.element f)
  | [] => None
  end.

(** The scope with the option [removeUnusedImports] set to [b], everything
    else as it is. *)
Definition with_removeUnusedImports (b : bool) (s : CompileScope.t) : CompileScope.t :=
  let o := CompileScope.options s in
  {| CompileScope.runtimeSymbols := CompileScope.runtimeSymbols s;
     CompileScope.usedHelpers := CompileScope.usedHelpers s;
     CompileScope.scopeSymbols := CompileScope.scopeSymbols s;
     CompileScope.globalSymbols := CompileScope.globalSymbols s;
     CompileScope.func := CompileScope.func s;
     CompileScope.options :=
       {| Options.module := Options.module o; Options.host := Options.host o;
          Options.scope := Options.scope o; Options.partials := Options.partials o;
          Options.cssScope := Options.cssScope o; Options.helpers := Options.helpers o;
          Options.component := Options.component o; Options.indent := Options.indent o;
          Options.prefix := Options.prefix o; Options.suffix := Options.suffix o;
          Options.removeUnusedImports := b; Options.warn := Options.warn o |};
     CompileScope.body := CompileScope.body s;
     CompileScope.partialsMap := CompileScope.partialsMap s;
     CompileScope.componentsMap := CompileScope.componentsMap s;
     CompileScope.namespacesMap := CompileScope.namespacesMap s;
     CompileScope.namespaceStack := CompileScope.namespaceStack s;
     CompileScope.usedStore := CompileScope.usedStore s;
     CompileScope.helpers := CompileScope.helpers s;
     CompileScope._warned := CompileScope._warned s;
     CompileScope.warnings := CompileScope.warnings s |}.

(** The component imports no element has used. *)
Definition unusedImports (s : CompileScope.t) : list (string * ComponentImport.t) :=
  filter (λ entry, ComponentImport.used (snd entry) = false) (CompileScope.componentsMap s).

(** The warning [compile] delivers for an unused import. *)
Definition unusedWarning (removeUnused : bool) (entry : string * ComponentImport.t)
    : string * N :=
  ("Unused import " +:+ dq +:+ fst entry +:+ dq
   +:+ (if removeUnused then ", skipping" else ""),
   ComponentImport.node (snd entry)).

(** A scope with a [warn] callback and one component import that no
    element uses. *)
Definition unusedImportScope : CompileScope.t :=
  default freshWarn
    (exec (U := fixtureUtils) [ComponentsMapSet "my-item" "MyItem" "./my-item.html" 7]
       freshWarn).

(** The two generators of a scope the specification speaks about. *)
Inductive symbolKind : Type := GlobalKind | ScopeKind.

Definition symbolCall (k : symbolKind) (name : string) : call :=
  match k with
  | GlobalKind => GlobalSymbol name
  | ScopeKind => ScopeSymbol name
  end.

Definition generatorOf (k : symbolKind) (s : CompileScope.t) : SymbolGenerator :=
  match k with
  | GlobalKind => CompileScope.globalSymbols s
  | ScopeKind => CompileScope.scopeSymbols s
  end.

(** The symbol a generator of the scope makes of [name] and the number [n]. *)
Definition symbolText (k : symbolKind) (s : CompileScope.t) (name : string) (n : N) : string :=
  let g := generatorOf k s in
  let scope := Options.scope (CompileScope.options s) in
  _getPart scope (JS.Own (Num n)) (prefix g) +:+ name
  +:+ _getPart scope (JS.Own (Num n)) (suffix g).

(** The text a generator puts between the name and the number. *)
Definition constantSuffix (g : SymbolGenerator) : string :=
  match suffix g with
  | globalSuffix suffix => suffix
  | _ => ""
  end.

(** The number [generate] gives a name next. *)
Definition next (g : SymbolGenerator) (name : string) : N :=
  match _symbols g !! name with
  | Some (Num n) => n + 1
  | _ => 0
  end.

(** Counts are kept for the names that are not inherited members. *)
Definition counted (g : SymbolGenerator) : Prop :=
  ∀ name, JS.inherited name = false → _symbols g !! name ≠ Some NaN.

Definition is_digit (c : ascii) : bool :=
  (48 <=? N_of_ascii c)%N && (N_of_ascii c <=? 57)%N.

Fixpoint all_digits (s : string) : bool :=
  match s with
  | EmptyString => true
  | String c s' => is_digit c && all_digits s'
  end.

Fixpoint ends_in_digit (s : string) : bool :=
  match s with
  | EmptyString => false
  | String c EmptyString => is_digit c
  | String _ s' => ends_in_digit s'
  end.

(** The generator after one more request for [name]. *)
Definition bumped (name : string) (g : SymbolGenerator) : SymbolGenerator :=
  {| _symbols := bump name (_symbols g); prefix := prefix g; suffix := suffix g |}.

(** * Two compilations side by side

    Two scopes constructed in the same module and driven in any
    interleaving. [shared] is the module-level object [defaultOptions], the
    only state of [scope.ts] outside the instances; the constructor reads
    it and no method refers to it. *)

Inductive instance : Type := First | Second.

Global Instance instance_eq_dec : EqDecision instance.
Proof. solve_decision. Defined.

Record world : Type := {
  shared : Options.t;
  scope1 : CompileScope.t;
  scope2 : CompileScope.t
}.

Section Interleaving.
Context {U : Utils}.

(** [new CompileScope(options1)] and [new CompileScope(options2)]. *)
Definition start (defaultOptions : Options.t) (options1 options2 : Options.user) : world :=
  {| shared := defaultOptions;
     scope1 := CompileScope.constructor defaultOptions options1;
     scope2 := CompileScope.constructor defaultOptions options2 |}.


End Interleaving.




(** Calls made while [$$iteratorBlock0] of the fixture is generated: an
    element is opened and closed, and a nested function is generated. *)
Definition iteratorBlockCalls : list call :=
  [ EnterElement "li" "" {| staticContent := false; slotContent := false |};
    ExitElement;
    EnterFunction "conditionEntry" None;
    ExitFunction ["return $$conditionContent1;"] ].

(** The text of a node a call returned. *)
Definition valueText (v : value) : string :=
  match v with
  | VNode n => toString n
  | VString s => s
  | _ => ""
  end.

(** Calls between two visits of the same unresolved tag: another
    unresolved tag is met and the module is assembled. *)
Definition betweenChecks : list call :=
  [ CheckComponent "other-item" 30; EnterFunction "template" None; Compile ].

(** * More vocabulary: what a call sequence asks of the scope *)

(** The URIs a call sequence enters. *)
Definition entered (cs : list call) : list string :=
  omap (λ c, match c with EnterNamespace uri => Some uri | _ => None end) cs.

(** The runtime symbols, helpers and store keys a call sequence marks as
    used. *)
Definition usedBy (cs : list call) : list RuntimeSymbols.t :=
  omap (λ c, match c with Use symbol => Some symbol | _ => None end) cs.

Definition helpersUsedBy (cs : list call) : list string :=
  omap (λ c, match c with UseHelper symbol => Some symbol | _ => None end) cs.

Definition storeUsedBy (cs : list call) : list string :=
  omap (λ c, match c with UseStore symbol => Some symbol | _ => None end) cs.

(** The calls whose effect [compile] can show in the module text: they
    add to a used-set that is imported, to the body, or to one of the
    public maps. *)
Definition writesModule (c : call) : bool :=
  match c with
  | Use _ | UseHelper _ | Push _ | EnterNamespace _ | CheckComponent _ _
  | ComponentsMapSet _ _ _ _ | PartialsMapSet _ _ => true
  | _ => false
  end.

(** The generator after requests for the given names, in that order. *)
Definition requested (names : list string) (g : SymbolGenerator) : SymbolGenerator :=
  foldl (λ g name, bumped name g) g names.

(** How often a name occurs among requests. *)
Definition occurrences (x : string) (names : list string) : N :=
  N.of_nat (length (filter (λ name, name = x) names)).

(** The names a call sequence asks the scope generator for. *)
Definition scopeRequests (cs : list call) : list string :=
  omap (λ c, match c with ScopeSymbol name => Some name | _ => None end) cs.

(** The names a call sequence asks the global generator for: through
    [globalSymbol], through [enterFunction], and as ["ns"] through
    [enterNamespace] for a URI not among those [seen] before. *)
Fixpoint globalRequests (seen : list string) (cs : list call) : list string :=
  match cs with
  | [] => []
  | GlobalSymbol name :: cs | EnterFunction name _ :: cs =>
      name :: globalRequests seen cs
  | EnterNamespace uri :: cs =>
      if bool_decide (uri ∈ seen) then globalRequests seen cs
      else "ns" :: globalRequests (uri :: seen) cs
  | _ :: cs => globalRequests seen cs
  end.

(** The symbol a generator of the scope makes of [name] and of what it
    reads back from its table. *)
Definition symbolTextAt (k : symbolKind) (s : CompileScope.t) (name : string)
    (num : JS.prop counter) : string :=
  let g := generatorOf k s in
  let scope := Options.scope (CompileScope.options s) in
  _getPart scope num (prefix g) +:+ name +:+ _getPart scope num (suffix g).

(** What a generator reads back for the name of an inherited member:
    [NaN], or the prototype itself for [__proto__], whose assignment is
    ignored. *)
Definition inheritedNumber (name : string) : JS.prop counter :=
  if String.eqb name "__proto__" then JS.Proto name else JS.Own NaN.

(** The table of a generator that has only served requests: the name of
    an inherited member has no entry, or the entry [NaN]; [__proto__] has
    none. *)
Definition uncounted (g : SymbolGenerator) : Prop :=
  ∀ name, JS.inherited name = true →
    _symbols g !! name = None
    ∨ (_symbols g !! name = Some NaN ∧ String.eqb name "__proto__" = false).

(** The calls of a sequence made at the level of one function context:
    [d] is the number of function contexts entered on top of it. The
    calls made inside nested functions, and the [enterFunction] and
    [exitFunction] calls themselves, are left out; the list ends where
    the function context is exited. *)
Fixpoint ownCalls (d : nat) (cs : list call) : list call :=
  match cs with
  | [] => []
  | EnterFunction _ _ :: cs => ownCalls (S d) cs
  | ExitFunction _ :: cs =>
      match d with
      | O => []
      | S d => ownCalls d cs
      end
  | c :: cs => if Nat.eqb d 0 then c :: ownCalls d cs else ownCalls d cs
  end.


Definition pushedChunks (cs : list call) : list Chunk :=
  omap (λ c, match c with PushUpdate chunk => Some chunk | _ => None end) cs.

(** The update phase of a function context: the update list, the aliases
    declared and their generator. *)
Definition updatePhase (f : FunctionContext.t)
    : list Chunk * gmap string string * SymbolGenerator :=
  (FunctionContext.update f, FunctionContext.updateDeclarations f,
   FunctionContext.updateSymbols f).

(** What a call made at the level of a function context does to its
    update phase. *)
Definition updateStep (scope : string) (c : call)
    (a : list Chunk * gmap string string * SymbolGenerator)
    : list Chunk * gmap string string * SymbolGenerator :=
  let '(update, declarations, symbols) := a in
  match c with
  | PushUpdate chunk => (update ++ [chunk], declarations, symbols)
  | UpdateSymbol name value =>
      if negb (JS.has value declarations) then
        let '(symbol, g) := generate scope name symbols in
        (("const " +:+ symbol +:+ " = " +:+ value +:+ ";") :: update,
         JS.set value symbol declarations, g)
      else a
  | _ => a
  end.


(** A call that registers a component import under [tagName]. *)
Definition registers (tagName : string) (c : call) : bool :=
  match c with
  | ComponentsMapSet name _ _ _ => bool_decide (name = tagName)
  | _ => false
  end.

(** * The AST descriptors of templates

    The node classes of the template AST. A node of the expression AST
    ([Identifier], [Literal], [Program]) is taken by its location, the
    only part of it the constructors below read; a position by its
    offset. *)

Module Template.

Record SourceLocation : Type := { start : N; end_ : N }.

(** An expression node: [loc] is [None] when the node has no location. *)
Record Node : Type := { loc : option SourceLocation }.

(** [ENDAttributeName] and [ENDAttributeValue]: a node or [null]. *)
Definition ENDAttributeName : Type := option Node.
Definition ENDAttributeValue : Type := option Node.

(** The classes of the module. *)
Inductive class : Type :=
| ENDProgram | ENDTemplate | ENDElement | ENDAttribute | ENDVariable | ENDEvent
| ENDIfStatement | ENDChooseStatement | ENDChooseCase | ENDForEachStatement
| ENDPartialStatement | ENDVariableStatement | ENDAttributeStatement
| ENDAddClassStatement | ENDText.


(** The field initializer [type = '...'] of a class. *)
Definition type (c : class) : string :=
  match c with
  | ENDProgram => "ENDProgram" | ENDTemplate => "ENDTemplate"
  | ENDElement => "ENDElement" | ENDAttribute => "ENDAttribute"
  | ENDVariable => "ENDVariable" | ENDEvent => "ENDEvent"
  | ENDIfStatement => "ENDIfStatement" | ENDChooseStatement => "ENDChooseStatement"
  | ENDChooseCase => "ENDSwitchCase" | ENDForEachStatement => "ENDForEachStatement"
  | ENDPartialStatement => "ENDForEachStatement"
  | ENDVariableStatement => "ENDVariableStatement"
  | ENDAttributeStatement => "ENDAttributeStatement"
  | ENDAddClassStatement => "ENDAddClassStatement" | ENDText => "ENDText"
  end.

(** An [ENDAttribute] or [ENDVariable] as constructed: [attrLoc] is
    [None] when the constructor has not assigned [this.loc]. *)
Record attribute : Type := {
  attrType : string;
  attrName : ENDAttributeName;
  attrValue : ENDAttributeValue;
  attrLoc : option SourceLocation
}.

(** The body shared by the constructors of [ENDAttribute] and
    [ENDVariable]:
    [if (name.loc && value.loc)
       this.loc = { start: name.loc.start,
                    end: value ? value.loc.end : name.loc.end }].
    The result is [None] when reading [loc] from [null] raises; the right
    operand of [&&] is evaluated only if the left one is truthy. *)
Definition construct (c : class) (name : ENDAttributeName) (value : ENDAttributeValue)
    : option attribute :=
  match name with
  | None => None
  | Some n =>
      match loc n with
      | None =>
          Some {| attrType := type c; attrName := name; attrValue := value;
                  attrLoc := None |}
      | Some nameLoc =>
          match value with
          | None => None
          | Some v =>
              match loc v with
              | None =>
                  Some {| attrType := type c; attrName := name; attrValue := value;
                          attrLoc := None |}
              | Some valueLoc =>
                  Some {| attrType := type c; attrName := name; attrValue := value;
                          attrLoc :=
                            Some {| start := start nameLoc;
                                    end_ := match value with
                                            | Some _ => end_ valueLoc
                                            | None => end_ nameLoc
                                            end |} |}
              end
          end
      end
  end.

(** [new ENDAttribute(name, value)] and [new ENDVariable(name, value)] *)
Definition newENDAttribute := construct ENDAttribute.
Definition newENDVariable := construct ENDVariable.

End Template.

(** The scope argument of every open function context is absent, or is
    the one argument [markScopeAsUsed] adds. *)
Definition scopeArgOnce (s : CompileScope.t) : Prop :=
  Forall (λ f, FunctionContext.scopeArg f = []
               ∨ FunctionContext.scopeArg f
                 = [", " +:+ Options.scope (CompileScope.options s)])
    (CompileScope.func s).

(** * Examples: the model on the fixtures *)

Example generate_fresh :
  fst (generate "scope" "a" (newSymbolGenerator (PartString "$$") (globalSuffix "")))
  = "$$a0".
Proof. vm_compute. reflexivity. Qed.

Example generate_inherited :
  fst (generate "scope" "toString" (newSymbolGenerator (PartString "") numGenerator))
  = "toStringNaN".
Proof. vm_compute. reflexivity. Qed.

(** [function $$iteratorExpr0(host) { return host.props.items; }] of the
    fixture. *)
Example fixture_iteratorExpr :
  let '(symbol, s) := CompileScope.enterFunction "iteratorExpr" None fresh in
  (toString ∘ fst)
    <$> CompileScope.exitFunction (U := fixtureUtils) ["return host.props.items;"] s
  = Some ("function $$iteratorExpr0(host) {" +:+ nl +:+ tab
          +:+ "return host.props.items;" +:+ nl +:+ "}").
Proof. vm_compute. reflexivity. Qed.

Example lex_ref_name :
  EndorphinParser.readTokenAt {| EndorphinParser.input := "#ref-name"; EndorphinParser.pos := 0 |}
  = Some (EndorphinParser.Name "#ref-name"
            {| EndorphinParser.input := "#ref-name"; EndorphinParser.pos := 9 |}).
Proof. vm_compute. reflexivity. Qed.

Example lex_foo_bar :
  EndorphinParser.readTokenAt {| EndorphinParser.input := "foo-bar + 1"; EndorphinParser.pos := 0 |}
  = Some (EndorphinParser.Name "foo-bar"
            {| EndorphinParser.input := "foo-bar + 1"; EndorphinParser.pos := 7 |}).
Proof. vm_compute. reflexivity. Qed.

Example lex_minus_three :
  EndorphinParser.readTokenAt {| EndorphinParser.input := "-3"; EndorphinParser.pos := 0 |}
  = Some (EndorphinParser.Super 45).
Proof. vm_compute. reflexivity. Qed.

(** * The tokenizer plugin *)

Section Tokenizer.
Import EndorphinParser.






(** Neither sigil is an identifier character: inside a word it ends the
    word. *)
Lemma sigil_ends_word :
  continues (Some 35%N) = false ∧ continues (Some 64%N) = false.
Proof. by vm_compute. Qed.




End Tokenizer.

(** * How calls change the function-context stack *)

(** Unfolds the methods in a hypothesis about [step]. *)
Ltac unfold_methods H :=
  unfold ret, CompileScope.use, CompileScope.useHelper, CompileScope.useStore,
    CompileScope.scope, CompileScope.scopeSymbol, CompileScope.localSymbol,
    CompileScope.push, CompileScope.pushUpdate, CompileScope.updateSymbol,
    CompileScope.enterFunction, CompileScope.exitFunction,
    CompileScope.enterElement, CompileScope.exitElement,
    CompileScope.enterNamespace, CompileScope.exitNamespace,
    CompileScope.requiresInjector, CompileScope.localInjector,
    CompileScope.scopeInjector, CompileScope.isComponent,
    CompileScope.checkComponent, CompileScope.inComponent, CompileScope.warn,
    CompileScope.markScopeAsUsed, CompileScope.globalSymbol, generate,
    CompileScope.set_current, CompileScope.element in H.

(** Case analysis on everything a method branches on. *)
Ltac method_cases :=
  repeat (first [progress simplify_eq | case_match]; simpl in * ).

Section Frame.
Context {U : Utils}.
Import CompileScope.

Lemma warn_warnings msg pos s : ∃ w, warn msg pos s = set_warnings w s.
Proof.
  unfold warn. destruct (Options.warn (options s)); [by eexists|].
  exists (warnings s). by destruct s.
Qed.

Lemma compileImport_fold r l body s :
  ∃ w, snd (foldl (compileImport r) (body, s) l) = set_warnings w s.
Proof.
  revert body s. induction l as [|[name item] l IH]; intros body s; simpl.
  - exists (warnings s). by destruct s.
  - destruct (ComponentImport.used item); simpl.
    + apply IH.
    + destruct (warn_warnings
        ("Unused import " +:+ dq +:+ name +:+ dq +:+ (if r then ", skipping" else ""))
        (ComponentImport.node item) s) as [w Hw].
      rewrite Hw.
      destruct r; edestruct IH as [w' Hw']; rewrite Hw'; by eexists.
Qed.

(** [compile] changes nothing of the scope but the warnings delivered. *)
Lemma compile_warnings s : ∃ w, snd (compile s) = set_warnings w s.
Proof.
  unfold compile, compileComponents.
  destruct (negb _).
  - destruct (compileImport_fold (Options.removeUnusedImports (options s))
                (componentsMap s) (compileRuntime s []) s) as [w Hw].
    destruct (foldl _ _ _) as [body s']. simpl in *. by exists w.
  - exists (warnings s). by destruct s.
Qed.

(** A call pushes a function context ([enterFunction]), pops the current
    one ([exitFunction]), or updates the current one in place; in the
    last case the symbol and the injector stay, and the scope argument
    stays unless the call reaches [markScopeAsUsed]. *)
Lemma step_func c s v s' :
  step c s = Some (v, s') →
  match c with
  | EnterFunction name inj =>
      ∃ g, func s' = g :: func s
        ∧ v = VString (FunctionContext.symbol g)
        ∧ FunctionContext.injector g = inj
        ∧ FunctionContext.scopeArg g = []
        ∧ FunctionContext.element g = []
        ∧ FunctionContext.update g = []
  | ExitFunction _ => ∃ f, func s = f :: func s'
  | _ =>
      (func s = [] ∧ func s' = [])
      ∨ ∃ f f' parent, func s = f :: parent ∧ func s' = f' :: parent
          ∧ FunctionContext.symbol f' = FunctionContext.symbol f
          ∧ FunctionContext.injector f' = FunctionContext.injector f
          ∧ (marks c = false → FunctionContext.scopeArg f' = FunctionContext.scopeArg f)
          ∧ (∀ x a, FunctionContext.updateDeclarations f !! x = Some a →
                    FunctionContext.updateDeclarations f' !! x = Some a)
  end.
Proof.
  intros Hstep.
  destruct c; simpl in Hstep;
    try match type of Hstep with
        | context [compile s] =>
            unfold ret in Hstep;
            destruct (compile_warnings s) as [w Hw];
            destruct (compile s) as [out s1]; simpl in *;
            injection Hstep as <- <-; rewrite Hw;
            destruct (func s) as [|f p] eqn:Hf; simpl; rewrite Hf;
            [by left|right; by exists f, f, p]
        end.
  all: unfold_methods Hstep.
  all: destruct s; simpl in *.
  all: method_cases.
  all: try done.
  all: try (eexists; done).
  all: try match goal with |- context [?l = [] ∧ _] => is_var l; destruct l end.
  all: try (left; done).
  all: try (right; eexists _, _, _; done).
  all: right; eexists _, _, _; do 5 (split; [done|]); simpl.
  all: intros x a Hx; unfold JS.set; case_match; [done|].
  all: rewrite lookup_insert_ne; [done|]; intros ->.
  all: match goal with
       | H : negb (JS.has _ _) = true |- _ =>
           apply negb_true_iff, orb_false_iff in H as [H _];
           apply bool_decide_eq_false in H; apply H; eauto
       end.
Qed.

(** The function context found [d] levels below the current one, across
    a call sequence that does not exit it: it keeps its symbol, its
    injector and the aliases it has declared, and its scope argument too
    when no call made at its own level reaches [markScopeAsUsed]. *)
Lemma run_keeps cs :
  ∀ d d' s vs s' pre f rest,
    run cs s = Some (vs, s') →
    depth_after d cs = Some d' →
    func s = pre ++ f :: rest → length pre = d →
    ∃ pre' f', func s' = pre' ++ f' :: rest ∧ length pre' = d'
      ∧ FunctionContext.symbol f' = FunctionContext.symbol f
      ∧ FunctionContext.injector f' = FunctionContext.injector f
      ∧ (unmarked d cs = true →
         FunctionContext.scopeArg f' = FunctionContext.scopeArg f)
      ∧ (∀ x a, FunctionContext.updateDeclarations f !! x = Some a →
                FunctionContext.updateDeclarations f' !! x = Some a).
Proof.
  induction cs as [|c cs IH]; intros d d' s vs s' pre f rest Hrun Hdepth Hfunc Hlen.
  - simpl in *. simplify_eq. by exists pre, f.
  - simpl in Hrun.
    destruct (step c s) as [[v s1]|] eqn:Hstep; simpl in Hrun; [|done].
    destruct (run cs s1) as [[vs1 s2]|] eqn:Hrun1; simpl in Hrun; [|done].
    injection Hrun as <- <-.
    pose proof (step_func _ _ _ _ Hstep) as Hc.
    assert (Hother :
      (func s = [] ∧ func s1 = []
       ∨ ∃ f0 f' parent, func s = f0 :: parent ∧ func s1 = f' :: parent
           ∧ FunctionContext.symbol f' = FunctionContext.symbol f0
           ∧ FunctionContext.injector f' = FunctionContext.injector f0
           ∧ (marks c = false →
              FunctionContext.scopeArg f' = FunctionContext.scopeArg f0)
           ∧ (∀ x a, FunctionContext.updateDeclarations f0 !! x = Some a →
                     FunctionContext.updateDeclarations f' !! x = Some a)) →
      depth_after d cs = Some d' →
      (unmarked d (c :: cs) = true →
       (if Nat.eqb d 0 then marks c = false else True) ∧ unmarked d cs = true) →
      ∃ pre' f', func s2 = pre' ++ f' :: rest ∧ length pre' = d'
        ∧ FunctionContext.symbol f' = FunctionContext.symbol f
        ∧ FunctionContext.injector f' = FunctionContext.injector f
        ∧ (unmarked d (c :: cs) = true →
           FunctionContext.scopeArg f' = FunctionContext.scopeArg f)
        ∧ (∀ x a, FunctionContext.updateDeclarations f !! x = Some a →
                  FunctionContext.updateDeclarations f' !! x = Some a)).
    { intros [[Hnil _]|(f0 & f1 & parent & Hs & Hs1 & Hsym & Hinj & Harg & Hdecl)] Hd Hun.
      { rewrite Hfunc in Hnil. by destruct pre. }
      rewrite Hfunc in Hs. destruct pre as [|h pre]; simpl in Hs, Hlen;
        injection Hs as <- <-; subst d.
      - destruct (IH 0 d' s1 vs1 s2 [] f1 rest Hrun1 Hd Hs1 eq_refl)
          as (pre' & f' & ? & ? & ? & ? & Hun' & Hdecl').
        exists pre', f'. repeat split; [done|done|congruence|congruence| |by auto].
        intros Hu. destruct (Hun Hu) as [Hm Hu']. simpl in Hm.
        rewrite (Hun' Hu'). by apply Harg.
      - destruct (IH (S (length pre)) d' s1 vs1 s2 (f1 :: pre) f rest Hrun1 Hd)
          as (pre' & f' & ? & ? & ? & ? & Hun' & Hdecl'); [by rewrite Hs1|done|].
        exists pre', f'. repeat split; [done|done|done|done| |done].
        intros Hu. destruct (Hun Hu) as [_ Hu']. by apply Hun'. }
    destruct c; simpl in Hdepth;
      try (apply Hother; [exact Hc|exact Hdepth|];
           cbn [unmarked]; intros Hu; apply andb_true_iff in Hu as [Hm Hu];
           split; [by destruct (Nat.eqb d 0); [apply negb_true_iff in Hm|]|done]).
    + (* enterFunction *)
      destruct Hc as (g & Hs1 & _).
      destruct (IH (S d) d' s1 vs1 s2 (g :: pre) f rest Hrun1 Hdepth)
        as (pre' & f' & ? & ? & ? & ? & Hun' & Hdecl');
        [by rewrite Hs1, Hfunc|simpl; lia|].
      exists pre', f'. repeat split; [done|done|done|done| |done].
      simpl. intros Hu. apply andb_true_iff in Hu as [_ Hu]. by apply Hun'.
    + (* exitFunction *)
      destruct Hc as (h & Hs).
      destruct d as [|d]; [done|].
      rewrite Hfunc in Hs. destruct pre as [|h' pre]; simpl in Hs, Hlen; [done|].
      injection Hs as <- Hs. injection Hlen as Hlen.
      destruct (IH d d' s1 vs1 s2 pre f rest Hrun1 Hdepth)
        as (pre' & f' & ? & ? & ? & ? & Hun' & Hdecl'); [done..|].
      exists pre', f'. repeat split; [done|done|done|done| |done].
      simpl. intros Hu. by apply Hun'.
Qed.
End Frame.

(** * requiresInjector *)

Section RequiresInjector.
Context {U : Utils}.
Import CompileScope.

(** C2 (as amended). In a state with a current function context,
    [requiresInjector()] returns a boolean. While that function context
    has an element open, the result is true iff the content of that
    element is not fully static, or is slot content, or the element is a
    registered component. While it has none, the result is true iff the
    function context has an injector. *)
Theorem requiresInjector_policy (s : CompileScope.t) (f : FunctionContext.t)
    (parent : list FunctionContext.t) :
  func s = f :: parent →
  ∃ b, requiresInjector s = Some b
    ∧ match currentElement s with
      | Some e =>
          b = true ↔
            staticContent (ElementContext.stats e) = false
            ∨ slotContent (ElementContext.stats e) = true
            ∨ isComponent (ElementContext.name e) s = true
      | None => b = true ↔ JS.truthy (FunctionContext.injector f) = true
      end.
Proof.
  intros Hf. unfold requiresInjector, currentElement, inComponent, element.
  rewrite Hf. simpl.
  destruct (FunctionContext.element f) as [|e p] eqn:He; simpl.
  - by eexists.
  - eexists. split; [done|].
    destruct (isComponent _ s), (staticContent _), (slotContent _); simpl;
      intuition congruence.
Qed.

(** C9. Once a function context has been entered and is current again
    with no element of its own open, [requiresInjector()] is true iff
    [enterFunction] was given an injector symbol (a non-empty string, the
    same test [exitFunction] applies before it prints the argument). *)
Theorem requiresInjector_of_function (s : CompileScope.t) (name : string)
    (injectorSymbol : option string) (cs : list call) (vs : list value)
    (s' : CompileScope.t) :
  run cs (snd (enterFunction name injectorSymbol s)) = Some (vs, s') →
  depth_after 0 cs = Some 0 →
  currentElement s' = None →
  requiresInjector s' = Some (JS.truthy injectorSymbol)
  ∧ (requiresInjector s' = Some true ↔ ∃ h, injectorSymbol = Some h ∧ h ≠ "").
Proof.
  intros Hrun Hdepth Hel.
  destruct (step_func (EnterFunction name injectorSymbol) s
              (VString (fst (enterFunction name injectorSymbol s)))
              (snd (enterFunction name injectorSymbol s)))
    as (g & Hg & _ & Hinj & _).
  { simpl. unfold ret. done. }
  destruct (run_keeps cs 0 0 _ vs s' [] g (func s) Hrun Hdepth Hg eq_refl)
    as (pre' & f' & Hs' & Hlen & _ & Hinj' & _).
  destruct pre'; [|done]. simpl in Hs'.
  assert (Hreq : requiresInjector s' = Some (JS.truthy injectorSymbol)).
  { unfold requiresInjector. unfold currentElement in Hel. rewrite Hs' in *.
    destruct (FunctionContext.element f'); [|done]. by rewrite Hinj', Hinj. }
  split; [done|]. rewrite Hreq. split.
  - intros [= Ht]. destruct injectorSymbol as [h|]; [|done]. exists h.
    split; [done|]. intros ->. done.
  - intros (h & -> & Hne). simpl. f_equal. apply negb_true_iff.
    by apply String.eqb_neq.
Qed.

End RequiresInjector.

Lemma requiresInjector_policy_witness :
  let s := snd (CompileScope.enterFunction "template" (Some "injector") fresh) in
  ∃ b, CompileScope.requiresInjector s = Some b
       ∧ (b = true ↔ JS.truthy (Some "injector") = true).
Proof.
  exact (requiresInjector_policy
           (snd (CompileScope.enterFunction "template" (Some "injector") fresh))
           _ _ eq_refl).
Defined.

(** C2 as stated fails: in a function context that was entered with an
    injector and has no element open, [requiresInjector()] is true
    although there is no current element at all (hence none with dynamic
    or slot content) and the position is not inside a component. The
    earlier snapshot of the method answers the same. *)
Lemma requiresInjector_true_without_element :
  let s := snd (CompileScope.enterFunction "template" (Some "injector") fresh) in
  CompileScope.requiresInjector s = Some true
  ∧ CompileScope.element s = None
  ∧ CompileScope.inComponent s = false
  ∧ EarlierScope.requiresInjector s = Some true.
Proof. by vm_compute. Qed.

Lemma requiresInjector_of_function_witness :
  ∃ vs s',
    run (U := fixtureUtils) iteratorBlockCalls
      (snd (CompileScope.enterFunction "iteratorBlock" (Some "injector") fresh))
    = Some (vs, s')
    ∧ CompileScope.requiresInjector s' = Some true.
Proof.
  destruct (run (U := fixtureUtils) iteratorBlockCalls
              (snd (CompileScope.enterFunction "iteratorBlock" (Some "injector") fresh)))
    as [[vs s']|] eqn:Hrun; [|by vm_compute in Hrun].
  exists vs, s'. split; [done|].
  refine (proj1 (requiresInjector_of_function (U := fixtureUtils) fresh "iteratorBlock"
                   (Some "injector") iteratorBlockCalls vs s' Hrun eq_refl _)).
  vm_compute in Hrun. by injection Hrun as <- <-.
Defined.

(** * Strings and source nodes *)

Section Strings.
Lemma sapp_String (a : ascii) (s t : string) : String a s +:+ t = String a (s +:+ t).
Proof. reflexivity. Qed.

Lemma sapp_nil_l (s : string) : "" +:+ s = s.
Proof. reflexivity. Qed.

Lemma sapp_nil_r (s : string) : s +:+ "" = s.
Proof. induction s as [|a s IH]; [done|]. by rewrite sapp_String, IH. Qed.

Lemma sapp_assoc (s t u : string) : (s +:+ t) +:+ u = s +:+ (t +:+ u).
Proof. induction s as [|a s IH]; [done|]. by rewrite !sapp_String, IH. Qed.

Lemma concat_cons (x : string) (xs : list string) :
  String.concat "" (x :: xs) = x +:+ String.concat "" xs.
Proof. destruct xs; simpl; [by rewrite sapp_nil_r|done]. Qed.

Lemma concat_snoc (xs : list string) (x : string) :
  String.concat "" (xs ++ [x]) = String.concat "" xs +:+ x.
Proof.
  induction xs as [|y xs IH]; [done|].
  change ((y :: xs) ++ [x]) with (y :: (xs ++ [x])).
  by rewrite !concat_cons, IH, sapp_assoc.
Qed.

Lemma toString_add (chunk : string) (node : SourceNode) :
  toString (add chunk node) = toString node +:+ chunk.
Proof.
  unfold add, toString. destruct (String.eqb_spec chunk "") as [->|_].
  - by rewrite sapp_nil_r.
  - apply concat_snoc.
Qed.

Lemma toString_addNode (child node : SourceNode) :
  toString (addNode child node) = toString node +:+ toString child.
Proof. unfold addNode, toString. apply concat_snoc. Qed.
End Strings.

(** * exitFunction *)

Section ExitFunction.
Context {U : Utils}.
Import CompileScope.

(** The text of the argument list [exitFunction] prints. *)
Lemma exitFunction_text (body : ChunkList) (s : CompileScope.t)
    (f : FunctionContext.t) (parent : list FunctionContext.t) :
  func s = f :: parent →
  let symbol := FunctionContext.symbol f in
  let args := hostArgs f s +:+ toString (FunctionContext.scopeArg f) in
  let updateSymbol := symbol +:+ "Update" in
  let mount :=
    "function " +:+ symbol +:+ "(" +:+ args +:+ ") {" +:+ nl +:+ indent s
    +:+ format body (indent s) in
  ∃ out, exitFunction body s = Some (out, set_func parent s)
    ∧ toString out =
        if negb (Nat.eqb (length (FunctionContext.update f)) 0)
        then mount +:+ nl +:+ indent s +:+ "return " +:+ updateSymbol +:+ ";"
             +:+ nl +:+ "}" +:+ nl +:+ nl
             +:+ "function " +:+ updateSymbol +:+ "(" +:+ args +:+ ") {" +:+ nl
             +:+ indent s +:+ format (FunctionContext.update f) (indent s)
             +:+ nl +:+ "}"
        else mount +:+ nl +:+ "}".
Proof.
  intros Hf. unfold exitFunction. rewrite Hf. eexists. split; [done|].
  destruct (negb _);
    repeat (rewrite toString_add || rewrite toString_addNode);
    change (toString []) with ""; rewrite sapp_nil_l, ?sapp_assoc; done.
Qed.
End ExitFunction.

Section FunctionPairs.
Context {U : Utils}.
Import CompileScope.

(** The function context a matched [enterFunction] ... [exitFunction]
    pair pops is the one the pair pushed. *)
Lemma matched_function (s : CompileScope.t) (name : string)
    (injectorSymbol : option string) (cs : list call) (vs : list value)
    (s1 : CompileScope.t) :
  run cs (snd (enterFunction name injectorSymbol s)) = Some (vs, s1) →
  depth_after 0 cs = Some 0 →
  ∃ f, func s1 = f :: func s
    ∧ FunctionContext.symbol f = fst (enterFunction name injectorSymbol s)
    ∧ FunctionContext.injector f = injectorSymbol
    ∧ (unmarked 0 cs = true → FunctionContext.scopeArg f = []).
Proof.
  intros Hrun Hdepth.
  destruct (step_func (EnterFunction name injectorSymbol) s
              (VString (fst (enterFunction name injectorSymbol s)))
              (snd (enterFunction name injectorSymbol s)))
    as (g & Hg & Hsym & Hinj & Harg & _); [done|].
  destruct (run_keeps cs 0 0 _ vs s1 [] g (func s) Hrun Hdepth Hg eq_refl)
    as (pre' & f' & Hs' & Hlen & Hsym' & Hinj' & Harg' & _).
  destruct pre'; [|done]. exists f'. simpl in Hs'.
  split; [done|]. split. { injection Hsym as Hsym. by rewrite Hsym', <- Hsym. }
  split; [congruence|]. intros Hu. by rewrite Harg'.
Qed.

(** C5 (as amended). For a matched [enterFunction] ... [exitFunction]
    pair, [exitFunction] pops the function context and emits the function
    named by the symbol [enterFunction] returned. If update statements
    were recorded, the body is followed by [return <symbol>Update;] and a
    second function [<symbol>Update] with the same argument list holds
    the update statements. If none was recorded, the emitted text is the
    header, the formatted body and the closing brace only: [exitFunction]
    adds no return statement and no update function. *)
Theorem exitFunction_mount_update (s : CompileScope.t) (name : string)
    (injectorSymbol : option string) (cs : list call) (vs : list value)
    (s1 : CompileScope.t) (body : ChunkList) :
  run cs (snd (enterFunction name injectorSymbol s)) = Some (vs, s1) →
  depth_after 0 cs = Some 0 →
  ∃ f out,
    func s1 = f :: func s
    ∧ exitFunction body s1 = Some (out, set_func (func s) s1)
    ∧ let symbol := fst (enterFunction name injectorSymbol s) in
      let updateSymbol := symbol +:+ "Update" in
      let args := hostArgs f s1 +:+ toString (FunctionContext.scopeArg f) in
      let mount :=
        "function " +:+ symbol +:+ "(" +:+ args +:+ ") {" +:+ nl +:+ indent s1
        +:+ format body (indent s1) in
      (FunctionContext.update f ≠ [] →
         toString out =
           mount +:+ nl +:+ indent s1 +:+ "return " +:+ updateSymbol +:+ ";"
           +:+ nl +:+ "}" +:+ nl +:+ nl
           +:+ "function " +:+ updateSymbol +:+ "(" +:+ args +:+ ") {" +:+ nl
           +:+ indent s1 +:+ format (FunctionContext.update f) (indent s1)
           +:+ nl +:+ "}")
      ∧ (FunctionContext.update f = [] → toString out = mount +:+ nl +:+ "}").
Proof.
  intros Hrun Hdepth.
  destruct (matched_function s name injectorSymbol cs vs s1 Hrun Hdepth)
    as (f & Hf & Hsym & _).
  destruct (exitFunction_text body s1 f (func s) Hf) as (out & Hout & Htext).
  exists f, out. split; [done|]. split; [done|].
  cbv zeta in *. rewrite <- Hsym. rewrite Htext. split.
  - intros Hne. by destruct (FunctionContext.update f).
  - by intros ->.
Qed.

(** [markScopeAsUsed()] fills the scope argument of the current function
    context and touches nothing else of the chain. *)
Lemma markScopeAsUsed_current (s : CompileScope.t) (f : FunctionContext.t)
    (parent : list FunctionContext.t) :
  func s = f :: parent →
  ∃ f', func (markScopeAsUsed s) = f' :: parent
    ∧ FunctionContext.scopeArg f' ≠ []
    ∧ FunctionContext.symbol f' = FunctionContext.symbol f.
Proof.
  intros Hf. unfold markScopeAsUsed, set_current. rewrite Hf.
  destruct (FunctionContext.scopeArg f) as [|a l] eqn:Ha; simpl.
  - eexists. split; [done|]. split; [|done]. simpl. unfold add.
    by rewrite sapp_String.
  - exists f. by rewrite Ha.
Qed.

(** C3 (as amended). [scopeSymbol(name)] marks the current function
    context, and only it, as requiring the scope argument: its ancestors
    are left as they are. A function context during which no call made
    at its own level reaches [markScopeAsUsed] is emitted with the host
    and its injector as its only arguments. *)
Theorem scopeSymbol_marks_current (s : CompileScope.t) (name : string) :
  (∀ f parent, func s = f :: parent →
     ∃ f', func (snd (scopeSymbol name s)) = f' :: parent
       ∧ FunctionContext.scopeArg f' ≠ []
       ∧ FunctionContext.symbol f' = FunctionContext.symbol f)
  ∧ (∀ fname injectorSymbol cs vs s1 body,
       run cs (snd (enterFunction fname injectorSymbol s)) = Some (vs, s1) →
       depth_after 0 cs = Some 0 →
       unmarked 0 cs = true →
       ∃ out s2 rest,
         exitFunction body s1 = Some (out, s2)
         ∧ toString out =
             "function " +:+ fst (enterFunction fname injectorSymbol s) +:+ "("
             +:+ host s1
             +:+ (if JS.truthy injectorSymbol
                  then ", " +:+ default "" injectorSymbol else "")
             +:+ ") {" +:+ rest).
Proof.
  split.
  - intros f parent Hf.
    destruct (markScopeAsUsed_current s f parent Hf) as (f1 & Hf1 & _ & Hsym1).
    unfold scopeSymbol. destruct (generate _ _ _) as [symbol g]. simpl.
    destruct (markScopeAsUsed_current
                (set_scopeSymbols g (markScopeAsUsed s)) f1 parent Hf1)
      as (f2 & Hf2 & Harg2 & Hsym2).
    exists f2. split; [done|]. split; [done|]. congruence.
  - intros fname injectorSymbol cs vs s1 body Hrun Hdepth Hun.
    destruct (matched_function s fname injectorSymbol cs vs s1 Hrun Hdepth)
      as (f & Hf & Hsym & Hinj & Harg).
    destruct (exitFunction_text body s1 f (func s) Hf) as (out & Hout & Htext).
    cbv zeta in Htext. rewrite (Harg Hun) in Htext.
    change (toString []) with "" in Htext.
    unfold hostArgs in Htext. rewrite Hinj, Hsym, sapp_nil_r in Htext.
    destruct (negb _); eexists out, _, _; (split; [done|]);
      rewrite Htext, ?sapp_assoc; reflexivity.
Qed.
End FunctionPairs.

Lemma exitFunction_mount_update_witness :
  ∃ out s2,
    CompileScope.exitFunction (U := fixtureUtils) ["insert(injector, text(host.props.a));"]
      (default fresh
         (exec (U := fixtureUtils) [PushUpdate "updateText(scope.$_text0, host.props.a);"]
            (snd (CompileScope.enterFunction "conditionContent" (Some "injector") fresh))))
    = Some (out, s2).
Proof.
  destruct (exitFunction_mount_update (U := fixtureUtils) fresh "conditionContent"
              (Some "injector")
              [PushUpdate "updateText(scope.$_text0, host.props.a);"]
              _ _ ["insert(injector, text(host.props.a));"] eq_refl eq_refl)
    as (f & out & _ & Hexit & _).
  eexists _, _. exact Hexit.
Defined.

(** C5 as stated fails: no update statement was recorded, and the
    function emitted contains a return statement, the one of the body
    ([$$iteratorExpr0] of the fixtures). *)
Lemma mount_without_update_may_return :
  let s := snd (CompileScope.enterFunction "iteratorExpr" None fresh) in
  ∃ f parent out s',
    CompileScope.func s = f :: parent
    ∧ FunctionContext.update f = []
    ∧ CompileScope.exitFunction (U := fixtureUtils) ["return host.props.items;"] s = Some (out, s')
    ∧ toString out = "function $$iteratorExpr0(host) {" +:+ nl +:+ tab
                      +:+ "return host.props.items;" +:+ nl +:+ "}"
    ∧ String.index 0 "return" (toString out) = Some 34%nat.
Proof. eexists _, _, _, _. vm_compute. repeat split; reflexivity. Qed.


Lemma scopeSymbol_marks_current_witness :
  let s := snd (CompileScope.enterFunction "template" None fresh) in
  (∃ f', CompileScope.func (snd (CompileScope.scopeSymbol "block" s)) = [f']
         ∧ FunctionContext.scopeArg f' ≠ [])
  ∧ (∃ out s2 rest,
       CompileScope.exitFunction (U := fixtureUtils) ["return host.props.items;"]
         (snd (CompileScope.enterFunction "iteratorExpr" None s)) = Some (out, s2)
       ∧ toString out = "function $$iteratorExpr0(host) {" +:+ rest).
Proof.
  pose proof (scopeSymbol_marks_current (U := fixtureUtils)
                (snd (CompileScope.enterFunction "template" None fresh)) "block")
    as [Hmark Hplain].
  split.
  - destruct (Hmark _ _ eq_refl) as (f' & Hf' & Harg & _). by exists f'.
  - exact (Hplain "iteratorExpr" None [] [] _ ["return host.props.items;"]
             eq_refl eq_refl eq_refl).
Defined.

(** C3 as stated fails: [scopeSymbol] called inside [$$conditionContent0],
    itself nested in [$$template0], marks the former only; the scope
    argument of the ancestor stays empty and its signature has none. *)
Lemma scopeSymbol_leaves_ancestors_unmarked :
  let s := snd (CompileScope.enterFunction "conditionContent" (Some "injector")
                  (snd (CompileScope.enterFunction "template" None fresh))) in
  fst (CompileScope.scopeSymbol "block" s) = "scope.$_block0"
  ∧ map (λ f, (FunctionContext.symbol f, FunctionContext.scopeArg f))
      (CompileScope.func (snd (CompileScope.scopeSymbol "block" s)))
    = [("$$conditionContent0", [", scope"]); ("$$template0", [])]
  ∧ (map valueText ∘ fst)
      <$> run (U := fixtureUtils) [ExitFunction []; ExitFunction []]
            (snd (CompileScope.scopeSymbol "block" s))
    = Some ["function $$conditionContent0(host, injector, scope) {" +:+ nl +:+ tab
              +:+ nl +:+ "}";
            "function $$template0(host) {" +:+ nl +:+ tab +:+ nl +:+ "}"].
Proof. by vm_compute. Qed.

(** * Warnings *)

Section Warnings.
Context {U : Utils}.
Import CompileScope.

(** No call removes a tag name from [_warned]. *)
Lemma step_warned c s v s' :
  step c s = Some (v, s') → _warned s ⊆ _warned s'.
Proof.
  intros Hstep.
  destruct c; simpl in Hstep;
    try match type of Hstep with
        | context [compile s] =>
            unfold ret in Hstep;
            destruct (compile_warnings s) as [w Hw];
            destruct (compile s) as [out s1]; simpl in *;
            injection Hstep as <- <-; by rewrite Hw
        end.
  all: unfold_methods Hstep.
  all: destruct s; simpl in *.
  all: method_cases.
  all: set_solver.
Qed.

Lemma run_warned cs s vs s' :
  run cs s = Some (vs, s') → _warned s ⊆ _warned s'.
Proof.
  revert s vs s'. induction cs as [|c cs IH]; intros s vs s' Hrun; simpl in Hrun.
  - by simplify_eq.
  - destruct (step c s) as [[v s1]|] eqn:Hstep; simpl in Hrun; [|done].
    destruct (run cs s1) as [[vs1 s2]|] eqn:Hrun1; simpl in Hrun; [|done].
    injection Hrun as <- <-.
    etrans; [by eapply step_warned|by eapply IH].
Qed.

(** C10. After [checkComponent] has met a dashed tag name that has no
    component import, no later [checkComponent] for that tag name
    delivers a warning, whatever calls are made in between; and one call
    delivers at most one warning. *)
Theorem checkComponent_warns_once (s : CompileScope.t) (tagName : string)
    (pos pos' : N) (cs : list call) (vs : list value) (s' : CompileScope.t) :
  map_get tagName (componentsMap s) = None →
  includes "-" tagName = true →
  run cs (checkComponent tagName pos s) = Some (vs, s') →
  warnings (checkComponent tagName pos' s') = warnings s'
  ∧ (length (warnings (checkComponent tagName pos s)) ≤ S (length (warnings s)))%nat.
Proof.
  intros Hget Hdash Hrun.
  assert (Hin : tagName ∈ _warned (checkComponent tagName pos s)).
  { unfold checkComponent. rewrite Hget, Hdash. simpl.
    case_bool_decide as Hw; simpl; [done|].
    unfold warn. destruct (Options.warn _); simpl; set_solver. }
  apply run_warned in Hrun. split.
  - unfold checkComponent. destruct (map_get tagName (componentsMap s')); [done|].
    rewrite Hdash. simpl. rewrite bool_decide_eq_true_2; [done|set_solver].
  - unfold checkComponent. rewrite Hget, Hdash. simpl.
    case_bool_decide; simpl; [lia|].
    unfold warn. destruct (Options.warn _); simpl; [|lia].
    rewrite length_app. simpl. lia.
Qed.
End Warnings.

Lemma checkComponent_warns_once_witness :
  ∃ vs s',
    run (U := fixtureUtils) betweenChecks
      (CompileScope.checkComponent "my-item" 12 freshWarn) = Some (vs, s')
    ∧ map snd (CompileScope.warnings s') = [12%N; 30%N]
    ∧ CompileScope.warnings (CompileScope.checkComponent "my-item" 40 s')
      = CompileScope.warnings s'.
Proof.
  destruct (run (U := fixtureUtils) betweenChecks
              (CompileScope.checkComponent "my-item" 12 freshWarn))
    as [[vs s']|] eqn:Hrun; [|by vm_compute in Hrun].
  exists vs, s'. split; [done|]. split.
  - vm_compute in Hrun. by injection Hrun as <- <-.
  - exact (proj1 (checkComponent_warns_once (U := fixtureUtils) freshWarn "my-item"
                    12 40 betweenChecks vs s' eq_refl eq_refl Hrun)).
Defined.

(** * compile and the option removeUnusedImports *)

Section Compile.
Context {U : Utils}.
Import CompileScope.

Lemma add_app (chunk : string) (b x : SourceNode) : add chunk (b ++ x) = b ++ add chunk x.
Proof. unfold add. destruct (String.eqb chunk ""); [done|]. by rewrite app_assoc. Qed.

Lemma addNode_app (child b x : SourceNode) : addNode child (b ++ x) = b ++ addNode child x.
Proof. unfold addNode. by rewrite app_assoc. Qed.

Lemma addAll_app (chunks : list string) (b x : SourceNode) :
  addAll chunks (b ++ x) = b ++ addAll chunks x.
Proof.
  unfold addAll. revert x. induction chunks as [|c chunks IH]; intros x; simpl; [done|].
  by rewrite add_app, IH.
Qed.

(** A fold of appending steps appends. *)
Lemma foldl_app {A} (F : SourceNode → A → SourceNode) (l : list A) (b x : SourceNode) :
  (∀ a b x, F (b ++ x) a = b ++ F x a) →
  foldl F (b ++ x) l = b ++ foldl F x l.
Proof.
  intros HF. revert x. induction l as [|a l IH]; intros x; simpl; [done|].
  by rewrite HF, IH.
Qed.

Lemma compilePartial_step (s : CompileScope.t) (n : nat) (b x : SourceNode)
    (entry : string * PartialDeclaration.t) :
  compilePartial s (n, b ++ x) entry
  = (S n, b ++ snd (compilePartial s (n, x) entry)).
Proof.
  destruct entry as [name partial]. unfold compilePartial.
  destruct (Nat.eqb n 0); by rewrite ?add_app, addAll_app.
Qed.

Lemma compilePartial_app (s : CompileScope.t) (l : list (string * PartialDeclaration.t))
    (n : nat) (b x : SourceNode) :
  snd (foldl (compilePartial s) (n, b ++ x) l)
  = b ++ snd (foldl (compilePartial s) (n, x) l).
Proof.
  revert n x. induction l as [|entry l IH]; intros n x; [done|].
  cbn [foldl]. rewrite compilePartial_step, IH.
  rewrite <- (app_nil_l x) at 2. by rewrite compilePartial_step.
Qed.

(** Everything [compile] writes behind the component imports is appended
    to what is there. *)
Lemma compileRest_app (s : CompileScope.t) (b : SourceNode) :
  compileRest s b = b ++ compileRest s [].
Proof.
  assert (H1 : ∀ b x, compileHelpers s (b ++ x) = b ++ compileHelpers s x).
  { intros. apply foldl_app. intros [url hs] ??. apply add_app. }
  assert (H2 : ∀ b x, compileCssScope s (b ++ x) = b ++ compileCssScope s x).
  { intros. unfold compileCssScope. destruct (JS.truthy _); [apply add_app|done]. }
  assert (H3 : ∀ b x, compilePartials s (b ++ x) = b ++ compilePartials s x).
  { intros. unfold compilePartials. destruct (negb _); [|done].
    by rewrite add_app, compilePartial_app, add_app. }
  assert (H4 : ∀ b x, compileNamespaces s (b ++ x) = b ++ compileNamespaces s x).
  { intros. apply foldl_app. intros [uri symbol] ??. apply add_app. }
  assert (H5 : ∀ b x, compileBody s (b ++ x) = b ++ compileBody s x).
  { intros. apply foldl_app. intros. by rewrite add_app, addNode_app, add_app. }
  unfold compileRest. rewrite <- (app_nil_r b) at 1.
  by rewrite H1, H2, H3, H4, H5.
Qed.

Lemma add_importLine (item : ComponentImport.t) (b : SourceNode) :
  add (importLine item) b = b ++ [importLine item].
Proof. unfold add, importLine. by rewrite sapp_String. Qed.

(** The component imports [compile] writes and the warnings it
    delivers, entry by entry. *)
Lemma compileImport_spec (r : bool) (l : list (string * ComponentImport.t))
    (b : SourceNode) (s : CompileScope.t) :
  foldl (compileImport r) (b, s) l
  = (b ++ map (λ entry, importLine (snd entry))
            (filter (λ entry, ComponentImport.used (snd entry) = true ∨ r = false) l),
     if Options.warn (options s)
     then set_warnings
            (warnings s
             ++ map (unusedWarning r)
                  (filter (λ entry, ComponentImport.used (snd entry) = false) l)) s
     else s).
Proof.
  revert b s. induction l as [|[name item] l IH]; intros b s.
  - simpl. rewrite !app_nil_r. destruct (Options.warn _); [|done]. by destruct s.
  - cbn [foldl]. rewrite !filter_cons. cbn [snd]. unfold compileImport at 2.
    assert (Hwarn : ∀ msg, warn msg (ComponentImport.node item) s
              = if Options.warn (options s)
                then set_warnings (warnings s ++ [(msg, ComponentImport.node item)]) s
                else s) by done.
    destruct (ComponentImport.used item) eqn:Hu; cbn [negb].
    + rewrite decide_True by auto.
      rewrite (decide_False (P := true = false)) by done.
      rewrite add_importLine, IH. cbn [map snd]. by rewrite <- app_assoc.
    + rewrite (decide_True (P := false = false)) by done.
      rewrite Hwarn.
      destruct r.
      * rewrite decide_False by (intros [?|?]; done). rewrite IH.
        destruct (Options.warn (options s)) eqn:Hw; [|by rewrite Hw].
        destruct s; simpl in *. rewrite Hw. unfold unusedWarning; simpl.
        by rewrite <- app_assoc.
      * rewrite decide_True by auto. rewrite add_importLine, IH.
        cbn [map snd]. rewrite <- app_assoc.
        destruct (Options.warn (options s)) eqn:Hw; [|by rewrite Hw].
        destruct s; simpl in *. rewrite Hw. unfold unusedWarning; simpl.
        by rewrite <- app_assoc.
Qed.
End Compile.

Section CompileOption.
Context {U : Utils}.
Import CompileScope.

Lemma compileComponents_fold (s : CompileScope.t) (b : SourceNode) :
  compileComponents s b
  = foldl (compileImport (Options.removeUnusedImports (options s))) (b, s)
      (componentsMap s).
Proof.
  unfold compileComponents. by destruct (componentsMap s).
Qed.

(** C8 (as amended). [compile()] always returns the module. With
    [removeUnusedImports] set or not, it writes the same text except for
    the import lines of the unused components, which are written only
    when the option is off; and with a [warn] callback configured it
    delivers one warning for each unused import, at the same positions,
    whose message ends in [, skipping] when the option is on.
    [checkComponent] delivers the same warnings whatever the option is,
    among them one for the first dashed tag name that has no component
    import. *)
Theorem compile_removeUnusedImports (s : CompileScope.t) :
  let on := with_removeUnusedImports true s in
  let off := with_removeUnusedImports false s in
  (∃ pre post,
     fst (compile off)
     = pre ++ map (λ entry, importLine (snd entry)) (componentsMap s) ++ post
     ∧ fst (compile on)
       = pre ++ map (λ entry, importLine (snd entry))
                  (filter (λ entry, ComponentImport.used (snd entry) = true)
                     (componentsMap s))
             ++ post)
  ∧ (Options.warn (options s) = true →
     warnings (snd (compile off))
     = warnings s ++ map (unusedWarning false) (unusedImports s)
     ∧ warnings (snd (compile on))
       = warnings s ++ map (unusedWarning true) (unusedImports s))
  ∧ (∀ tagName pos,
       warnings (checkComponent tagName pos on)
       = warnings (checkComponent tagName pos off))
  ∧ (∀ tagName pos,
       Options.warn (options s) = true →
       map_get tagName (componentsMap s) = None →
       includes "-" tagName = true →
       tagName ∉ _warned s →
       ∃ msg, warnings (checkComponent tagName pos s) = warnings s ++ [(msg, pos)]).
Proof.
  intros on off.
  assert (Hc : ∀ b, compile (with_removeUnusedImports b s)
    = (compileRuntime s []
         ++ map (λ entry, importLine (snd entry))
              (filter (λ entry, ComponentImport.used (snd entry) = true ∨ b = false)
                 (componentsMap s))
         ++ compileRest s [],
       if Options.warn (options s)
       then set_warnings (warnings s ++ map (unusedWarning b) (unusedImports s))
              (with_removeUnusedImports b s)
       else with_removeUnusedImports b s)).
  { intros b. unfold compile. rewrite compileComponents_fold, compileImport_spec.
    rewrite compileRest_app, <- app_assoc.
    destruct s as [? ? ? ? ? [] ? ? ? ? ? ? ? ? ?]; simpl.
    unfold unusedImports; simpl. by destruct warn0. }
  split; [|split; [|split]].
  - exists (compileRuntime s []), (compileRest s []).
    unfold on, off. rewrite !Hc. simpl. split.
    + replace (filter _ (componentsMap s)) with (componentsMap s); [done|].
      clear. induction (componentsMap s) as [|e l IH]; [done|].
      rewrite filter_cons, decide_True by auto. by rewrite <- IH.
    + erewrite list_filter_iff; [done|]. intros e. split; [|by left].
      by intros [?|?].
  - intros Hw. unfold on, off. rewrite !Hc, Hw. by destruct s.
  - intros tagName pos. unfold on, off, checkComponent, warn. destruct s; simpl.
    by repeat case_match.
  - intros tagName pos Hw Hget Hdash Hnew. eexists.
    unfold checkComponent, warn. rewrite Hget, Hdash.
    rewrite bool_decide_eq_false_2 by done. simpl. by rewrite Hw.
Qed.
End CompileOption.

Lemma compile_removeUnusedImports_witness :
  CompileScope.warnings
    (snd (CompileScope.compile (U := fixtureUtils)
            (with_removeUnusedImports false unusedImportScope)))
  = [("Unused import " +:+ dq +:+ "my-item" +:+ dq, 7%N)]
  ∧ ∃ msg, CompileScope.warnings (CompileScope.checkComponent "x-y" 3 unusedImportScope)
           = [(msg, 3%N)].
Proof.
  pose proof (compile_removeUnusedImports (U := fixtureUtils) unusedImportScope)
    as (_ & Hwarn & _ & Hcheck).
  split.
  - exact (proj1 (Hwarn eq_refl)).
  - apply (Hcheck "x-y" 3%N eq_refl eq_refl eq_refl). by vm_compute.
Defined.

(** C8 as stated fails: toggling [removeUnusedImports] also changes the
    message of the warning delivered for an unused import. *)
Lemma removeUnusedImports_changes_warning :
  CompileScope.warnings
    (snd (CompileScope.compile (U := fixtureUtils)
            (with_removeUnusedImports true unusedImportScope)))
  = [("Unused import " +:+ dq +:+ "my-item" +:+ dq +:+ ", skipping", 7%N)]
  ∧ CompileScope.warnings
      (snd (CompileScope.compile (U := fixtureUtils)
              (with_removeUnusedImports false unusedImportScope)))
    = [("Unused import " +:+ dq +:+ "my-item" +:+ dq, 7%N)]
  ∧ toString (fst (CompileScope.compile (U := fixtureUtils)
                     (with_removeUnusedImports true unusedImportScope)))
    = ""
  ∧ toString (fst (CompileScope.compile (U := fixtureUtils)
                     (with_removeUnusedImports false unusedImportScope)))
    = "import * as MyItem from " +:+ dq +:+ "./my-item.html" +:+ dq +:+ ";" +:+ nl.
Proof. by vm_compute. Qed.

(** * Decimal numbers at the end of a symbol *)

Section Digits.
Lemma pretty_N_char_digit (x : N) : is_digit (pretty_N_char x) = true.
Proof.
  unfold pretty_N_char. by repeat case_match.
Qed.

Lemma pretty_N_go_digits (x : N) (s : string) :
  all_digits s = true → all_digits (pretty_N_go x s) = true.
Proof.
  revert s. induction (N.lt_wf_0 x) as [x _ IH]; intros s Hs.
  destruct (decide (x = 0)%N) as [->|Hx]; [by rewrite pretty_N_go_0|].
  rewrite pretty_N_go_step by lia. apply IH.
  - apply N.div_lt; lia.
  - simpl. by rewrite pretty_N_char_digit.
Qed.

Lemma pretty_digits (n : N) : all_digits (pretty n) = true.
Proof.
  unfold pretty, pretty_N. case_decide; [done|]. by apply pretty_N_go_digits.
Qed.

Lemma all_digits_app (s t : string) :
  all_digits (s +:+ t) = all_digits s && all_digits t.
Proof.
  induction s as [|c s IH]; [done|].
  rewrite sapp_String. simpl. by rewrite IH, andb_assoc.
Qed.

Lemma all_digits_ends (s : string) :
  all_digits s = true → s ≠ "" → ends_in_digit s = true.
Proof.
  induction s as [|c s IH]; [done|]. intros Hd _. simpl in *.
  apply andb_true_iff in Hd as [Hc Hs]. destruct s; [done|]. by apply IH.
Qed.

Lemma ends_in_digit_tail (c : ascii) (s : string) :
  ends_in_digit (String c s) = false → ends_in_digit s = false.
Proof. simpl. by destruct s. Qed.

(** A string that does not end in a digit, followed by digits only, can
    be read back in one way. *)
Lemma digits_suffix_unique (x y d1 d2 : string) :
  x +:+ d1 = y +:+ d2 →
  all_digits d1 = true → all_digits d2 = true →
  ends_in_digit x = false → ends_in_digit y = false →
  x = y ∧ d1 = d2.
Proof.
  revert y. induction x as [|a x IH]; intros [|b y] Heq H1 H2 Hx Hy.
  - done.
  - rewrite sapp_nil_l in Heq. subst d1.
    rewrite all_digits_app in H1. apply andb_true_iff in H1 as [Hy' _].
    by rewrite all_digits_ends in Hy.
  - rewrite sapp_nil_l in Heq. subst d2.
    rewrite all_digits_app in H2. apply andb_true_iff in H2 as [Hx' _].
    by rewrite all_digits_ends in Hx.
  - rewrite !sapp_String in Heq. injection Heq as -> Heq.
    destruct (IH y Heq H1 H2) as [-> ->];
      [by eapply ends_in_digit_tail..|done].
Qed.

Lemma sapp_inj_r (x y z : string) : x +:+ z = y +:+ z → x = y.
Proof.
  intros Heq.
  assert (Hlen : ∀ s t, String.length (s +:+ t) = (String.length s + String.length t)%nat).
  { intros s t. induction s as [|c s IH]; [done|]. rewrite sapp_String. simpl. by rewrite IH. }
  assert (String.length x = String.length y) as Hl.
  { apply (f_equal String.length) in Heq. rewrite !Hlen in Heq. lia. }
  revert y Heq Hl. induction x as [|a x IH]; intros [|b y] Heq Hl; try done.
  rewrite !sapp_String in Heq. injection Heq as -> Heq. injection Hl as Hl.
  f_equal. by apply IH.
Qed.
End Digits.

(** * SymbolGenerator: numbering *)

Section Numbering.
Implicit Types (g : SymbolGenerator) (name : string).

Lemma not_inherited_proto name :
  JS.inherited name = false → String.eqb name "__proto__" = false.
Proof.
  intros Hn. apply String.eqb_neq. intros ->. by vm_compute in Hn.
Qed.

Lemma bump_lookup name g :
  JS.inherited name = false → counted g →
  _symbols (bumped name g) !! name = Some (Num (next g name)).
Proof.
  intros Hn Hg. pose proof (not_inherited_proto name Hn) as Hp.
  unfold bumped, bump, next, JS.has, JS.get, JS.set, increment. simpl.
  rewrite Hn, Hp.
  destruct (_symbols g !! name) as [[n|]|] eqn:Hl; simpl.
  - by rewrite lookup_insert_eq.
  - by destruct (Hg name Hn).
  - by rewrite lookup_insert_eq.
Qed.

Lemma bump_lookup_ne name name' g :
  name ≠ name' → _symbols (bumped name g) !! name' = _symbols g !! name'.
Proof.
  intros Hne. unfold bumped, bump, JS.set. simpl.
  destruct (JS.has name (_symbols g)), (String.eqb name "__proto__");
    by rewrite ?lookup_insert_ne.
Qed.

Lemma bumped_counted name g : counted g → counted (bumped name g).
Proof.
  intros Hg name' Hn'. destruct (decide (name = name')) as [->|Hne].
  - by rewrite bump_lookup.
  - rewrite bump_lookup_ne by done. by apply Hg.
Qed.

Lemma next_bumped name g :
  JS.inherited name = false → counted g →
  next (bumped name g) name = (next g name + 1)%N.
Proof. intros Hn Hg. unfold next at 1. by rewrite bump_lookup. Qed.

Lemma next_bumped_mono name name' g :
  JS.inherited name' = false → counted g →
  (next g name' ≤ next (bumped name g) name')%N.
Proof.
  intros Hn' Hg. destruct (decide (name = name')) as [->|Hne].
  - rewrite next_bumped by done. lia.
  - unfold next. by rewrite bump_lookup_ne.
Qed.

(** [generate(name)] for a counted name: the symbol carries the next
    number of the name. *)
Lemma generate_counted scope name g :
  JS.inherited name = false → counted g →
  generate scope name g
  = (_getPart scope (JS.Own (Num (next g name))) (prefix g) +:+ name
     +:+ _getPart scope (JS.Own (Num (next g name))) (suffix g),
     bumped name g).
Proof.
  intros Hn Hg. unfold generate. fold (bumped name g).
  pose proof (bump_lookup name g Hn Hg) as Hl. unfold bumped in Hl at 1. simpl in Hl.
  unfold JS.get. by rewrite Hl.
Qed.
End Numbering.

(** * Symbols of one scope *)

Section Symbols.
Context {U : Utils}.
Import CompileScope.

(** A call leaves a generator of the scope as it is or makes it count
    one more request; the options stay. *)
Lemma step_generator k c s v s' :
  step c s = Some (v, s') →
  options s' = options s
  ∧ (generatorOf k s' = generatorOf k s
     ∨ ∃ name, generatorOf k s' = bumped name (generatorOf k s)).
Proof.
  intros Hstep.
  destruct c; simpl in Hstep;
    try match type of Hstep with
        | context [compile s] =>
            unfold ret in Hstep;
            destruct (compile_warnings s) as [w Hw];
            destruct (compile s) as [out s1]; simpl in *;
            injection Hstep as <- <-; rewrite Hw;
            destruct k; by split; [|left]
        end.
  all: unfold_methods Hstep.
  all: destruct s; simpl in *.
  all: method_cases.
  all: split; [done|].
  all: destruct k; simpl.
  all: first [by left | by right; eexists].
Qed.

Lemma step_generator_counted k c s v s' :
  step c s = Some (v, s') → counted (generatorOf k s) →
  counted (generatorOf k s')
  ∧ options s' = options s
  ∧ prefix (generatorOf k s') = prefix (generatorOf k s)
  ∧ suffix (generatorOf k s') = suffix (generatorOf k s)
  ∧ ∀ name, JS.inherited name = false →
      (next (generatorOf k s) name ≤ next (generatorOf k s') name)%N.
Proof.
  intros Hstep Hg.
  destruct (step_generator k c s v s' Hstep) as [Ho [->|[name ->]]].
  - repeat split; first [done | intros; lia].
  - repeat split; try done; [by apply bumped_counted|].
    intros name' Hn'. by apply next_bumped_mono.
Qed.

Lemma run_generator_counted k cs s vs s' :
  run cs s = Some (vs, s') → counted (generatorOf k s) →
  counted (generatorOf k s')
  ∧ options s' = options s
  ∧ prefix (generatorOf k s') = prefix (generatorOf k s)
  ∧ suffix (generatorOf k s') = suffix (generatorOf k s)
  ∧ ∀ name, JS.inherited name = false →
      (next (generatorOf k s) name ≤ next (generatorOf k s') name)%N.
Proof.
  revert s vs s'. induction cs as [|c cs IH]; intros s vs s' Hrun Hg; simpl in Hrun.
  - simplify_eq. repeat split; first [done | intros; lia].
  - destruct (step c s) as [[v s1]|] eqn:Hstep; simpl in Hrun; [|done].
    destruct (run cs s1) as [[vs1 s2]|] eqn:Hrun1; simpl in Hrun; [|done].
    injection Hrun as <- <-.
    destruct (step_generator_counted k c s v s1 Hstep Hg) as (Hg1 & Ho1 & Hp1 & Hs1 & Hn1).
    destruct (IH s1 vs1 s2 Hrun1 Hg1) as (Hg2 & Ho2 & Hp2 & Hs2 & Hn2).
    split; [done|]. do 3 (split; [congruence|]).
    intros name Hn. etrans; [by apply Hn1|by apply Hn2].
Qed.

Lemma symbolText_same k s s' name n :
  options s' = options s →
  prefix (generatorOf k s') = prefix (generatorOf k s) →
  suffix (generatorOf k s') = suffix (generatorOf k s) →
  symbolText k s' name n = symbolText k s name n.
Proof. intros Ho Hp Hs. unfold symbolText. by rewrite Ho, Hp, Hs. Qed.

(** [globalSymbol(name)] and [scopeSymbol(name)] for a counted name. *)
Lemma step_symbolCall k name s :
  JS.inherited name = false → counted (generatorOf k s) →
  ∃ s', step (symbolCall k name) s
        = Some (VString (symbolText k s name (next (generatorOf k s) name)), s')
    ∧ generatorOf k s' = bumped name (generatorOf k s).
Proof.
  intros Hn Hg. destruct k; simpl in *; unfold ret.
  - unfold globalSymbol. rewrite generate_counted by done. simpl.
    eexists. split; [done|]. by destruct s.
  - unfold scopeSymbol.
    assert (Hm : ∀ s0, scopeSymbols (markScopeAsUsed s0) = scopeSymbols s0
                      ∧ options (markScopeAsUsed s0) = options s0).
    { intros s0. unfold markScopeAsUsed, set_current.
      destruct s0; simpl. by repeat case_match. }
    destruct (Hm s) as [Hg1 Ho1]. rewrite Hg1, Ho1.
    rewrite generate_counted by done. simpl.
    eexists. split; [done|]. rewrite (proj1 (Hm _)). by destruct (markScopeAsUsed s).
Qed.

Lemma run_symbol_at k cs :
  ∀ s vs s' j name,
    run cs s = Some (vs, s') → counted (generatorOf k s) →
    cs !! j = Some (symbolCall k name) → JS.inherited name = false →
    ∃ b, vs !! j = Some (VString (symbolText k s name b))
      ∧ (next (generatorOf k s) name ≤ b)%N.
Proof.
  induction cs as [|c cs IH]; intros s vs s' j name Hrun Hg Hj Hn; [done|].
  simpl in Hrun.
  destruct (step c s) as [[v s1]|] eqn:Hstep; simpl in Hrun; [|done].
  destruct (run cs s1) as [[vs1 s2]|] eqn:Hrun1; simpl in Hrun; [|done].
  injection Hrun as <- <-.
  destruct (step_generator_counted k c s v s1 Hstep Hg) as (Hg1 & Ho1 & Hp1 & Hs1 & Hn1).
  destruct j as [|j]; simpl in Hj.
  - injection Hj as ->.
    destruct (step_symbolCall k name s Hn Hg) as (s1' & Hstep' & _).
    rewrite Hstep in Hstep'. injection Hstep' as -> _.
    eexists. split; [done|]. lia.
  - destruct (IH s1 vs1 s2 j name Hrun1 Hg1 Hj Hn) as (b & Hb & Hle).
    exists b. split.
    + simpl. by rewrite Hb, (symbolText_same k s s1).
    + etrans; [by apply Hn1|done].
Qed.

(** Two requests to the same generator: both get a symbol made of the
    name and a number, and the later request for a name gets a larger
    number than every earlier request for it. *)
Lemma run_symbol_pair k cs :
  ∀ s vs s' i j ni nj,
    run cs s = Some (vs, s') → counted (generatorOf k s) →
    (i < j)%nat →
    cs !! i = Some (symbolCall k ni) → cs !! j = Some (symbolCall k nj) →
    JS.inherited ni = false → JS.inherited nj = false →
    ∃ a b, vs !! i = Some (VString (symbolText k s ni a))
      ∧ vs !! j = Some (VString (symbolText k s nj b))
      ∧ (ni = nj → (a < b)%N).
Proof.
  induction cs as [|c cs IH]; intros s vs s' i j ni nj Hrun Hg Hij Hi Hj Hni Hnj;
    [done|].
  simpl in Hrun.
  destruct (step c s) as [[v s1]|] eqn:Hstep; simpl in Hrun; [|done].
  destruct (run cs s1) as [[vs1 s2]|] eqn:Hrun1; simpl in Hrun; [|done].
  injection Hrun as <- <-.
  destruct (step_generator_counted k c s v s1 Hstep Hg) as (Hg1 & Ho1 & Hp1 & Hs1 & Hn1).
  destruct j as [|j]; [lia|]. simpl in Hj.
  destruct i as [|i]; simpl in Hi.
  - injection Hi as ->.
    destruct (step_symbolCall k ni s Hni Hg) as (s1' & Hstep' & Hgen).
    rewrite Hstep in Hstep'. injection Hstep' as -> <-.
    destruct (run_symbol_at k cs s1 vs1 s2 j nj Hrun1 Hg1 Hj Hnj) as (b & Hb & Hle).
    exists (next (generatorOf k s) ni), b. split; [done|]. split.
    + simpl. by rewrite Hb, (symbolText_same k s s1).
    + intros <-. rewrite Hgen, next_bumped in Hle by done. lia.
  - destruct (IH s1 vs1 s2 i j ni nj Hrun1 Hg1 ltac:(lia) Hi Hj Hni Hnj)
      as (a & b & Ha & Hb & Hlt).
    exists a, b. simpl. by rewrite Ha, Hb, !(symbolText_same k s s1).
Qed.
End Symbols.

Section Uniqueness.
Context {U : Utils}.
Import CompileScope.

Lemma constructor_counted k defaultOptions options :
  counted (generatorOf k (constructor defaultOptions options)).
Proof. intros name _. destruct k; simpl; by rewrite lookup_empty. Qed.

(** C1 (as amended). Within one scope, whatever other calls are made,
    two requests to [globalSymbol] (or two to [scopeSymbol]) for names
    that are not inherited members of a plain object return symbols made
    of the name and a decimal number. The later request for a name gets
    a strictly larger number than any earlier request for that name, so
    no number is used twice for a name and the two symbols differ.
    Symbols requested for different names differ as well when neither
    name, followed by the constant suffix of the generator, ends in a
    decimal digit. *)
Theorem symbols_unique (defaultOptions : Options.t) (options : Options.user)
    (cs : list call) (vs : list value) (s' : CompileScope.t) (k : symbolKind)
    (i j : nat) (ni nj : string) :
  let s := constructor defaultOptions options in
  run cs s = Some (vs, s') →
  (i < j)%nat →
  cs !! i = Some (symbolCall k ni) → cs !! j = Some (symbolCall k nj) →
  JS.inherited ni = false → JS.inherited nj = false →
  ∃ a b ti tj,
    vs !! i = Some (VString ti) ∧ vs !! j = Some (VString tj)
    ∧ ti = symbolText k s ni a ∧ tj = symbolText k s nj b
    ∧ (ni = nj → (a < b)%N)
    ∧ (ni = nj
       ∨ (ends_in_digit (ni +:+ constantSuffix (generatorOf k s)) = false
          ∧ ends_in_digit (nj +:+ constantSuffix (generatorOf k s)) = false) →
       ti ≠ tj).
Proof.
  intros s Hrun Hij Hi Hj Hni Hnj.
  destruct (run_symbol_pair k cs s vs s' i j ni nj Hrun
              (constructor_counted k _ _) Hij Hi Hj Hni Hnj)
    as (a & b & Ha & Hb & Hlt).
  exists a, b, (symbolText k s ni a), (symbolText k s nj b).
  do 5 (split; [done|]).
  intros Hcond Heq.
  assert (Hsame : ni = nj ∧ pretty a = pretty b).
  { destruct k; unfold symbolText in Heq; unfold constantSuffix in Hcond;
      simpl in Heq, Hcond.
    - apply String.app_inj in Heq.
      destruct Hcond as [->|[Hdi Hdj]].
      + do 2 apply String.app_inj in Heq. by split.
      + rewrite <- (sapp_assoc ni), <- (sapp_assoc nj) in Heq.
        apply digits_suffix_unique in Heq as [Heq ->];
          [|by apply pretty_digits..|done|done].
        apply sapp_inj_r in Heq. by split.
    - apply String.app_inj in Heq.
      destruct Hcond as [->|[Hdi Hdj]].
      + apply String.app_inj in Heq. by split.
      + rewrite !sapp_nil_r in Hdi, Hdj.
        by apply digits_suffix_unique in Heq as [-> ->];
          [|by apply pretty_digits..|done|done]. }
  destruct Hsame as [Hn Hp]. apply (inj pretty) in Hp. specialize (Hlt Hn). lia.
Qed.
End Uniqueness.

Lemma symbols_unique_witness :
  ∃ a b ti tj,
    [VString "$$block0"; VString "$$template0"; VString "$$block1"] !! 0%nat
      = Some (VString ti)
    ∧ [VString "$$block0"; VString "$$template0"; VString "$$block1"] !! 2%nat
      = Some (VString tj)
    ∧ ti = symbolText GlobalKind fresh "block" a
    ∧ tj = symbolText GlobalKind fresh "block" b
    ∧ ("block" = "block" → (a < b)%N)
    ∧ ("block" = "block"
       ∨ (ends_in_digit ("block" +:+ constantSuffix (generatorOf GlobalKind fresh)) = false
          ∧ ends_in_digit ("block" +:+ constantSuffix (generatorOf GlobalKind fresh)) = false) →
       ti ≠ tj).
Proof.
  exact (symbols_unique (U := fixtureUtils) Options.defaultOptions Options.no_options
           [GlobalSymbol "block"; EnterFunction "template" None; GlobalSymbol "block"]
           [VString "$$block0"; VString "$$template0"; VString "$$block1"]
           _ GlobalKind 0 2 "block" "block"
           eq_refl ltac:(lia) eq_refl eq_refl eq_refl eq_refl).
Defined.

(** C1 as stated fails: the eleventh symbol for [a] and the first symbol
    for [a1] are the same text, for global symbols and for scope symbols. *)
Lemma symbols_of_different_names_collide :
  (fst <$> run (U := fixtureUtils)
             (replicate 11 (GlobalSymbol "a") ++ [GlobalSymbol "a1"]) fresh)
  = Some (map VString
            ["$$a0"; "$$a1"; "$$a2"; "$$a3"; "$$a4"; "$$a5"; "$$a6"; "$$a7";
             "$$a8"; "$$a9"; "$$a10"; "$$a10"])
  ∧ (fst <$> run (U := fixtureUtils)
               (replicate 11 (ScopeSymbol "a") ++ [ScopeSymbol "a1"]) fresh)
    = Some (map VString
              ["scope.$_a0"; "scope.$_a1"; "scope.$_a2"; "scope.$_a3";
               "scope.$_a4"; "scope.$_a5"; "scope.$_a6"; "scope.$_a7";
               "scope.$_a8"; "scope.$_a9"; "scope.$_a10"; "scope.$_a10"]).
Proof. by vm_compute. Qed.

(** * updateSymbol *)

Section UpdateSymbol.
Context {U : Utils}.
Import CompileScope.

(** A request for a text the current function context has declared
    returns the declared alias and changes nothing. *)
Lemma updateSymbol_declared (s : CompileScope.t) (f : FunctionContext.t)
    (parent : list FunctionContext.t) (name value alias : string) :
  func s = f :: parent →
  FunctionContext.updateDeclarations f !! value = Some alias →
  updateSymbol name value s = Some (JS.Own alias, s).
Proof.
  intros Hf Hl. unfold updateSymbol, JS.has, JS.get. rewrite Hf, Hl.
  by rewrite bool_decide_eq_true_2 by eauto.
Qed.

(** Memoization, for an expression text that is not the name of an
    inherited member: the first request in a function context declares
    an alias and puts its evaluation at the head of the update list
    (or finds the alias declared already and emits nothing); every later
    request made in that function context, whatever calls come in
    between, returns the same alias and emits nothing. *)
Lemma updateSymbol_memoized (s : CompileScope.t) (f : FunctionContext.t)
    (parent : list FunctionContext.t) (name1 name2 expr : string)
    (r1 : JS.prop string) (s1 : CompileScope.t) (cs : list call)
    (vs : list value) (s2 : CompileScope.t) :
  func s = f :: parent →
  JS.inherited expr = false →
  updateSymbol name1 expr s = Some (r1, s1) →
  run cs s1 = Some (vs, s2) →
  depth_after 0 cs = Some 0 →
  ∃ alias f1,
    r1 = JS.Own alias
    ∧ func s1 = f1 :: parent
    ∧ FunctionContext.update f1
      = match FunctionContext.updateDeclarations f !! expr with
        | Some _ => FunctionContext.update f
        | None =>
            ("const " +:+ alias +:+ " = " +:+ expr +:+ ";") :: FunctionContext.update f
        end
    ∧ updateSymbol name2 expr s2 = Some (JS.Own alias, s2).
Proof.
  intros Hf Hv Hfirst Hrun Hdepth.
  pose proof (not_inherited_proto expr Hv) as Hp.
  assert (H1 : ∃ alias f1,
    r1 = JS.Own alias ∧ func s1 = f1 :: parent
    ∧ FunctionContext.updateDeclarations f1 !! expr = Some alias
    ∧ FunctionContext.update f1
      = match FunctionContext.updateDeclarations f !! expr with
        | Some _ => FunctionContext.update f
        | None =>
            ("const " +:+ alias +:+ " = " +:+ expr +:+ ";") :: FunctionContext.update f
        end).
  { destruct (FunctionContext.updateDeclarations f !! expr) as [a|] eqn:Hl.
    - rewrite (updateSymbol_declared s f parent name1 expr a Hf Hl) in Hfirst.
      injection Hfirst as <- <-. by exists a, f.
    - revert Hfirst. unfold updateSymbol. rewrite Hf.
      unfold JS.has. rewrite Hl, Hv.
      rewrite bool_decide_eq_false_2 by (by intros [? ?]). cbn [orb negb].
      destruct (generate _ name1 _) as [alias g].
      unfold JS.get, JS.set, set_current. rewrite Hf, Hp. cbn.
      rewrite lookup_insert_eq. intros [= <- <-].
      eexists alias, _. split; [done|]. split; [done|]. cbn.
    by rewrite lookup_insert_eq. }
  destruct H1 as (alias & f1 & -> & Hf1 & Hl1 & Hu1).
  destruct (run_keeps cs 0 0 s1 vs s2 [] f1 parent Hrun Hdepth Hf1 eq_refl)
    as (pre' & f2 & Hf2 & Hlen & _ & _ & _ & Hdecl).
  destruct pre'; [|done]. simpl in Hf2.
  exists alias, f1. do 3 (split; [done|]).
  by apply (updateSymbol_declared s2 f2 parent), Hdecl.
Qed.
End UpdateSymbol.

(** C4 fails on the code for an expression text that names an inherited
    member of a plain object: [value in this.func.updateDeclarations] is
    true from the start, so nothing is declared, no statement is emitted
    and the member itself is returned instead of an alias. *)
Lemma updateSymbol_inherited_value :
  let s := snd (CompileScope.enterFunction "template" None fresh) in
  CompileScope.updateSymbol "value" "toString" s = Some (JS.Proto "toString", s)
  ∧ map FunctionContext.update (CompileScope.func s) = [[]]
  ∧ CompileScope.updateSymbol "value" "host.props.a" s
    = Some (JS.Own "value0",
            snd (default (JS.Undefined, s)
                   (CompileScope.updateSymbol "value" "host.props.a" s)))
  ∧ map FunctionContext.update
      (CompileScope.func
         (snd (default (JS.Undefined, s)
                 (CompileScope.updateSymbol "value" "host.props.a" s))))
    = [["const value0 = host.props.a;"]].
Proof. by vm_compute. Qed.

(** * Independence of compilations *)

Section Independence.
Context {U : Utils}.


End Independence.


(** * Further properties of the scope *)

Section Reachable.
Context {U : Utils}.
Import CompileScope.

(** What every call keeps, a call sequence keeps. *)
Lemma run_invariant (P : CompileScope.t → Prop) :
  (∀ c s v s', step c s = Some (v, s') → P s → P s') →
  ∀ cs s vs s', run cs s = Some (vs, s') → P s → P s'.
Proof.
  intros Hstep. induction cs as [|c cs IH]; intros s vs s' Hrun HP; simpl in Hrun.
  - by simplify_eq.
  - destruct (step c s) as [[v s1]|] eqn:Hc; simpl in Hrun; [|done].
    destruct (run cs s1) as [[vs1 s2]|] eqn:Hrun1; simpl in Hrun; [|done].
    injection Hrun as <- <-. eauto.
Qed.

Lemma run_cons_inv c cs s vs s' :
  run (c :: cs) s = Some (vs, s') →
  ∃ v s1 vs1, step c s = Some (v, s1) ∧ run cs s1 = Some (vs1, s') ∧ vs = v :: vs1.
Proof.
  simpl. intros Hrun.
  destruct (step c s) as [[v s1]|] eqn:Hc; simpl in Hrun; [|done].
  destruct (run cs s1) as [[vs1 s2]|] eqn:Hrun1; simpl in Hrun; [|done].
  injection Hrun as <- <-. by eexists _, _, _.
Qed.

Lemma run_app_inv cs1 cs2 s vs s' :
  run (cs1 ++ cs2) s = Some (vs, s') →
  ∃ vs1 s1 vs2, run cs1 s = Some (vs1, s1) ∧ run cs2 s1 = Some (vs2, s')
                ∧ vs = vs1 ++ vs2.
Proof.
  revert s vs. induction cs1 as [|c cs1 IH]; intros s vs Hrun.
  - by eexists [], s, vs.
  - apply run_cons_inv in Hrun as (v & s1 & vs1 & Hc & Hrun & ->).
    destruct (IH _ _ Hrun) as (vs1' & s2 & vs2 & H1 & H2 & ->).
    exists (v :: vs1'), s2, vs2. cbn [run]. rewrite Hc. cbn. by rewrite H1.
Qed.
End Reachable.

(** * Insertion-ordered maps *)

Section JSMapFacts.
Context {V : Type}.
Implicit Types (m : list (string * V)) (k : string) (v : V).

Lemma map_get_set k v m : map_get k (map_set k v m) = Some v.
Proof.
  induction m as [|[k' v'] m IH]; simpl.
  - by rewrite String.eqb_refl.
  - destruct (String.eqb k' k) eqn:Hk; simpl; [by rewrite String.eqb_refl|].
    by rewrite Hk.
Qed.

Lemma map_get_set_ne k k' v m : k ≠ k' → map_get k' (map_set k v m) = map_get k' m.
Proof.
  intros Hne. induction m as [|[k0 v0] m IH]; simpl.
  - by rewrite (proj2 (String.eqb_neq k k')).
  - destruct (String.eqb k0 k) eqn:Hk; simpl.
    + apply String.eqb_eq in Hk as ->.
      by rewrite (proj2 (String.eqb_neq k k')).
    + by rewrite IH.
Qed.

Lemma map_get_elem k m : map_get k m = None ↔ k ∉ map fst m.
Proof.
  induction m as [|[k' v'] m IH]; simpl.
  - split; [intros _; apply not_elem_of_nil|done].
  - rewrite not_elem_of_cons. destruct (String.eqb_spec k' k) as [->|Hne].
    + split; [done|]. by intros [? _].
    + rewrite IH. split; [by intros ?; split|by intros [_ ?]].
Qed.

(** [m.set(k, v)] keeps the keys and their order when [k] is a key, and
    puts [k] last when it is not. *)
Lemma map_set_keys k v m :
  map fst (map_set k v m)
  = if map_has k m then map fst m else map fst m ++ [k].
Proof.
  unfold map_has. induction m as [|[k' v'] m IH]; simpl; [done|].
  destruct (String.eqb_spec k' k) as [->|Hne]; simpl; [done|].
  rewrite IH. by destruct (map_get k m).
Qed.

Lemma map_set_NoDup k v m : NoDup (map fst m) → NoDup (map fst (map_set k v m)).
Proof.
  intros Hm. rewrite map_set_keys. unfold map_has.
  destruct (map_get k m) eqn:Hg; [done|].
  apply NoDup_app. split; [done|]. split; [|apply NoDup_singleton].
  intros x Hx ->%list_elem_of_singleton. by apply map_get_elem in Hg.
Qed.
End JSMapFacts.

(** * What each call changes of the registries *)

Section Registries.
Context {U : Utils}.
Import CompileScope.

Lemma step_registries c s v s' :
  step c s = Some (v, s') →
  options s' = options s
  ∧ helpers s' = helpers s
  ∧ runtimeSymbols s'
    = match c with
      | Use symbol => set_add symbol (runtimeSymbols s)
      | _ => runtimeSymbols s
      end
  ∧ usedHelpers s'
    = match c with
      | UseHelper symbol => set_add symbol (usedHelpers s)
      | _ => usedHelpers s
      end
  ∧ usedStore s'
    = match c with
      | UseStore symbol => set_add symbol (usedStore s)
      | _ => usedStore s
      end
  ∧ body s' = match c with Push node => body s ++ [node] | _ => body s end
  ∧ partialsMap s'
    = match c with
      | PartialsMapSet name partial => map_set name partial (partialsMap s)
      | _ => partialsMap s
      end
  ∧ componentsMap s'
    = match c with
      | ComponentsMapSet name symbol href pos =>
          map_set name
            {| ComponentImport.symbol := symbol; ComponentImport.href := href;
               ComponentImport.node := pos; ComponentImport.used := false |}
            (componentsMap s)
      | CheckComponent tagName _ =>
          match map_get tagName (componentsMap s) with
          | Some data =>
              map_set tagName (ComponentImport.set_used true data) (componentsMap s)
          | None => componentsMap s
          end
      | _ => componentsMap s
      end
  ∧ namespacesMap s'
    = match c with
      | EnterNamespace uri =>
          match map_get uri (namespacesMap s) with
          | Some _ => namespacesMap s
          | None => map_set uri (fst (globalSymbol "ns" s)) (namespacesMap s)
          end
      | _ => namespacesMap s
      end
  ∧ namespaceStack s'
    = match c with
      | EnterNamespace uri =>
          namespaceStack s
          ++ [default (fst (globalSymbol "ns" s)) (map_get uri (namespacesMap s))]
      | ExitNamespace => removelast (namespaceStack s)
      | _ => namespaceStack s
      end.
Proof.
  intros Hstep.
  destruct c; simpl in Hstep;
    try match type of Hstep with
        | context [compile s] =>
            unfold ret in Hstep;
            destruct (compile_warnings s) as [w Hw];
            destruct (compile s) as [out s1]; simpl in *;
            injection Hstep as <- <-; by rewrite Hw
        end.
  all: unfold_methods Hstep.
  all: destruct s; simpl in *.
  all: method_cases.
  all: done.
Qed.
End Registries.

(** * Namespaces *)

Section Namespaces.
Context {U : Utils}.
Import CompileScope.

Lemma step_namespace_keys c s v s' :
  step c s = Some (v, s') →
  map fst (namespacesMap s')
  = match c with
    | EnterNamespace uri =>
        if map_has uri (namespacesMap s) then map fst (namespacesMap s)
        else map fst (namespacesMap s) ++ [uri]
    | _ => map fst (namespacesMap s)
    end.
Proof.
  intros Hstep.
  destruct (step_registries c s v s' Hstep) as (_ & _ & _ & _ & _ & _ & _ & _ & Hn & _).
  rewrite Hn. destruct c; try done.
  unfold map_has. destruct (map_get uri (namespacesMap s)) eqn:Hg; [done|].
  rewrite map_set_keys. unfold map_has. by rewrite Hg.
Qed.

Lemma run_namespace_keys cs :
  ∀ s vs s',
    run cs s = Some (vs, s') →
    NoDup (map fst (namespacesMap s)) →
    NoDup (map fst (namespacesMap s'))
    ∧ ∀ uri, uri ∈ map fst (namespacesMap s')
             ↔ uri ∈ map fst (namespacesMap s) ∨ uri ∈ entered cs.
Proof.
  induction cs as [|c cs IH]; intros s vs s' Hrun Hnd.
  - simpl in Hrun. simplify_eq. split; [done|]. intros uri. unfold entered. simpl.
    rewrite elem_of_nil. tauto.
  - apply run_cons_inv in Hrun as (v & s1 & vs1 & Hc & Hrun & ->).
    pose proof (step_namespace_keys c s v s1 Hc) as Hk.
    assert (Hnd1 : NoDup (map fst (namespacesMap s1))).
    { rewrite Hk. destruct c; try done. unfold map_has.
      destruct (map_get uri (namespacesMap s)) eqn:Hg; [done|].
      apply NoDup_app. split; [done|]. split; [|apply NoDup_singleton].
      intros x Hx ->%list_elem_of_singleton. by apply map_get_elem in Hg. }
    destruct (IH s1 vs1 s' Hrun Hnd1) as [Hnd' Hin]. split; [done|].
    intros uri. rewrite Hin, Hk. unfold entered.
    destruct c; simpl; try tauto.
    rewrite elem_of_cons. unfold map_has.
    destruct (map_get uri0 (namespacesMap s)) eqn:Hg.
    + split; [tauto|]. intros [?|[->|?]]; [tauto| |tauto].
      left. destruct (decide (uri0 ∈ map fst (namespacesMap s))) as [|Hn]; [done|].
      apply map_get_elem in Hn. congruence.
    + rewrite elem_of_app, list_elem_of_singleton. tauto.
Qed.

(** X1. In a scope driven from its construction by any call sequence, the
    namespace map holds each URI once, and holds exactly the URIs that
    [enterNamespace] was called with: one constant per distinct URI,
    however often a namespace is entered. *)
Theorem namespaces_registered_once (defaultOptions : Options.t) (options : Options.user)
    (cs : list call) (vs : list value) (s' : CompileScope.t) :
  run cs (constructor defaultOptions options) = Some (vs, s') →
  NoDup (map fst (namespacesMap s'))
  ∧ ∀ uri, uri ∈ map fst (namespacesMap s') ↔ uri ∈ entered cs.
Proof.
  intros Hrun.
  destruct (run_namespace_keys cs _ vs s' Hrun) as [Hnd Hin]; [apply NoDup_nil_2|].
  split; [done|]. intros uri. rewrite Hin. simpl. rewrite elem_of_nil. tauto.
Qed.

Lemma step_namespace_get c s v s' uri symbol :
  step c s = Some (v, s') →
  map_get uri (namespacesMap s) = Some symbol →
  map_get uri (namespacesMap s') = Some symbol.
Proof.
  intros Hstep Hg.
  destruct (step_registries c s v s' Hstep) as (_ & _ & _ & _ & _ & _ & _ & _ & Hn & _).
  rewrite Hn. destruct c; try done.
  destruct (map_get uri0 (namespacesMap s)) eqn:Hg0; [done|].
  rewrite map_get_set_ne; [done|]. intros ->. congruence.
Qed.

Lemma enterNamespace_registered uri s symbol :
  map_get uri (namespacesMap s) = Some symbol →
  enterNamespace uri s = set_namespaceStack (namespaceStack s ++ [symbol]) s.
Proof. intros Hg. unfold enterNamespace. by rewrite Hg. Qed.

Lemma enterNamespace_registers uri s :
  ∃ symbol, map_get uri (namespacesMap (enterNamespace uri s)) = Some symbol
            ∧ namespace (enterNamespace uri s) = Some symbol.
Proof.
  unfold enterNamespace, namespace.
  destruct (map_get uri (namespacesMap s)) as [symbol|] eqn:Hg.
  - exists symbol. simpl. by rewrite Hg, last_snoc.
  - destruct (globalSymbol "ns" s) as [symbol s1]. exists symbol. simpl.
    by rewrite map_get_set, last_snoc.
Qed.

(** X2. Once a namespace has been entered, entering the same URI again,
    after any calls, makes the same constant the current namespace and
    generates nothing: the global symbols and the namespace map stay as
    they are. *)
Theorem enterNamespace_reuses_constant (s : CompileScope.t) (uri : string)
    (cs : list call) (vs : list value) (s' : CompileScope.t) :
  run cs (enterNamespace uri s) = Some (vs, s') →
  ∃ symbol,
    namespace (enterNamespace uri s) = Some symbol
    ∧ namespace (enterNamespace uri s') = Some symbol
    ∧ globalSymbols (enterNamespace uri s') = globalSymbols s'
    ∧ namespacesMap (enterNamespace uri s') = namespacesMap s'.
Proof.
  intros Hrun. destruct (enterNamespace_registers uri s) as (symbol & Hg & Hns).
  exists symbol. split; [done|].
  assert (Hg' : map_get uri (namespacesMap s') = Some symbol).
  { refine (run_invariant (λ s0, map_get uri (namespacesMap s0) = Some symbol)
              _ cs _ vs s' Hrun Hg).
    intros c s0 v s1 Hc. by apply (step_namespace_get c s0 v s1). }
  rewrite (enterNamespace_registered uri s' symbol Hg').
  unfold namespace. simpl. by rewrite last_snoc.
Qed.

(** X3. [exitNamespace()] undoes [enterNamespace(uri)]: the namespace
    stack, and with it the current namespace, is what it was before; on an
    empty stack [exitNamespace()] changes nothing. *)
Theorem exitNamespace_undoes_enter (s : CompileScope.t) (uri : string) :
  namespaceStack (exitNamespace (enterNamespace uri s)) = namespaceStack s
  ∧ namespace (exitNamespace (enterNamespace uri s)) = namespace s
  ∧ (namespaceStack s = [] → exitNamespace s = s).
Proof.
  assert (H1 : namespaceStack (exitNamespace (enterNamespace uri s)) = namespaceStack s).
  { unfold exitNamespace, enterNamespace.
    destruct (map_get uri (namespacesMap s)); [|destruct (globalSymbol "ns" s) eqn:Hgs];
      simpl; rewrite removelast_last; [done|].
    unfold globalSymbol in Hgs. destruct (generate _ _ _). by injection Hgs as <- <-. }
  split; [done|]. split; [unfold namespace; by rewrite H1|].
  intros Hs. unfold exitNamespace. rewrite Hs. simpl. destruct s; simpl in *. by subst.
Qed.
End Namespaces.

Lemma enterNamespace_reuses_constant_witness :
  ∃ vs s',
    run (U := fixtureUtils) [ExitNamespace; GlobalSymbol "ns"; EnterNamespace "uri:b"]
      (CompileScope.enterNamespace "uri:a" fresh) = Some (vs, s')
    ∧ CompileScope.namespace (CompileScope.enterNamespace "uri:a" s') = Some "$$ns0".
Proof.
  destruct (run (U := fixtureUtils) [ExitNamespace; GlobalSymbol "ns"; EnterNamespace "uri:b"]
              (CompileScope.enterNamespace "uri:a" fresh))
    as [[vs s']|] eqn:Hrun; [|by vm_compute in Hrun].
  exists vs, s'. split; [done|].
  destruct (enterNamespace_reuses_constant (U := fixtureUtils) fresh "uri:a" _ vs s' Hrun)
    as (symbol & H1 & H2 & _).
  vm_compute in H1. injection H1 as <-. exact H2.
Defined.

Lemma namespaces_registered_once_witness :
  ∃ vs s',
    run (U := fixtureUtils)
      [EnterNamespace "uri:a"; EnterNamespace "uri:b"; ExitNamespace; EnterNamespace "uri:a"]
      fresh = Some (vs, s')
    ∧ NoDup (map fst (CompileScope.namespacesMap s')).
Proof.
  destruct (run (U := fixtureUtils)
      [EnterNamespace "uri:a"; EnterNamespace "uri:b"; ExitNamespace; EnterNamespace "uri:a"]
      fresh) as [[vs s']|] eqn:Hrun; [|by vm_compute in Hrun].
  exists vs, s'. split; [done|].
  exact (proj1 (namespaces_registered_once (U := fixtureUtils) Options.defaultOptions
                  Options.no_options _ vs s' Hrun)).
Defined.

Lemma exitNamespace_undoes_enter_witness :
  CompileScope.exitNamespace fresh = fresh.
Proof.
  exact (proj2 (proj2 (exitNamespace_undoes_enter fresh "uri:a")) eq_refl).
Defined.

(** * The used-sets and the helpers map *)

Section UsedSets.
Context {U : Utils}.
Import CompileScope.

Lemma set_add_NoDup {A} `{EqDecision A} (x : A) (l : list A) :
  NoDup l → NoDup (set_add x l).
Proof.
  intros Hnd. unfold set_add. case_bool_decide; [done|].
  apply NoDup_app. split; [done|]. split; [|apply NoDup_singleton].
  by intros y Hy ->%list_elem_of_singleton.
Qed.

Lemma set_add_elem {A} `{EqDecision A} (x y : A) (l : list A) :
  y ∈ set_add x l ↔ y = x ∨ y ∈ l.
Proof.
  unfold set_add. case_bool_decide.
  - split; [tauto|]. by intros [->|?].
  - rewrite elem_of_app, list_elem_of_singleton. tauto.
Qed.

Lemma run_used_sets cs :
  ∀ s vs s',
    run cs s = Some (vs, s') →
    (NoDup (runtimeSymbols s) → NoDup (runtimeSymbols s'))
    ∧ (NoDup (usedHelpers s) → NoDup (usedHelpers s'))
    ∧ (NoDup (usedStore s) → NoDup (usedStore s'))
    ∧ (∀ x, x ∈ runtimeSymbols s' ↔ x ∈ runtimeSymbols s ∨ x ∈ usedBy cs)
    ∧ (∀ x, x ∈ usedHelpers s' ↔ x ∈ usedHelpers s ∨ x ∈ helpersUsedBy cs)
    ∧ (∀ x, x ∈ usedStore s' ↔ x ∈ usedStore s ∨ x ∈ storeUsedBy cs).
Proof.
  induction cs as [|c cs IH]; intros s vs s' Hrun.
  - simpl in Hrun. simplify_eq. unfold usedBy, helpersUsedBy, storeUsedBy. simpl.
    repeat split; try done; try tauto; intros [?|[]%elem_of_nil]; done.
  - apply run_cons_inv in Hrun as (v & s1 & vs1 & Hc & Hrun & ->).
    destruct (step_registries c s v s1 Hc) as (_ & _ & Hr & Hh & Hs & _).
    destruct (IH s1 vs1 s' Hrun) as (N1 & N2 & N3 & E1 & E2 & E3).
    split; [|split; [|split; [|split; [|split]]]].
    + intros Hnd. apply N1. rewrite Hr. destruct c; try done. by apply set_add_NoDup.
    + intros Hnd. apply N2. rewrite Hh. destruct c; try done. by apply set_add_NoDup.
    + intros Hnd. apply N3. rewrite Hs. destruct c; try done. by apply set_add_NoDup.
    + intros x. rewrite E1, Hr. unfold usedBy.
      destruct c; simpl; try tauto. rewrite set_add_elem, elem_of_cons. tauto.
    + intros x. rewrite E2, Hh. unfold helpersUsedBy.
      destruct c; simpl; try tauto. rewrite set_add_elem, elem_of_cons. tauto.
    + intros x. rewrite E3, Hs. unfold storeUsedBy.
      destruct c; simpl; try tauto. rewrite set_add_elem, elem_of_cons. tauto.
Qed.

(** X4. The three used-sets of a scope hold, without repetition, exactly
    what [use], [useHelper] and [useStore] were called with since the
    scope was constructed; no other method adds to them or removes from
    them. *)
Theorem used_sets_record_calls (defaultOptions : Options.t) (options : Options.user)
    (cs : list call) (vs : list value) (s' : CompileScope.t) :
  run cs (constructor defaultOptions options) = Some (vs, s') →
  (NoDup (runtimeSymbols s') ∧ ∀ x, x ∈ runtimeSymbols s' ↔ x ∈ usedBy cs)
  ∧ (NoDup (usedHelpers s') ∧ ∀ x, x ∈ usedHelpers s' ↔ x ∈ helpersUsedBy cs)
  ∧ (NoDup (usedStore s') ∧ ∀ x, x ∈ usedStore s' ↔ x ∈ storeUsedBy cs).
Proof.
  intros Hrun.
  destruct (run_used_sets cs _ vs s' Hrun) as (N1 & N2 & N3 & E1 & E2 & E3).
  simpl in *.
  repeat split; try (by first [apply N1|apply N2|apply N3]; apply NoDup_nil_2).
  all: first [rewrite E1|rewrite E2|rewrite E3]; rewrite ?elem_of_nil; tauto.
Qed.
End UsedSets.

Lemma used_sets_record_calls_witness :
  ∃ vs s',
    run (U := fixtureUtils) [Use RuntimeSymbols.get; UseStore "a"; Use RuntimeSymbols.get] fresh
    = Some (vs, s')
    ∧ NoDup (CompileScope.runtimeSymbols s').
Proof.
  destruct (run (U := fixtureUtils)
              [Use RuntimeSymbols.get; UseStore "a"; Use RuntimeSymbols.get] fresh)
    as [[vs s']|] eqn:Hrun; [|by vm_compute in Hrun].
  exists vs, s'. split; [done|].
  exact (proj1 (proj1 (used_sets_record_calls (U := fixtureUtils) Options.defaultOptions
                         Options.no_options _ vs s' Hrun))).
Defined.
Section Grouping.
Context (f : string → JS.prop string).
Import CompileScope.
Implicit Types (g : list (JS.prop string * list string)) (l : list string).

Lemma group_add_keys u0 h g :
  map fst (group_add u0 h g)
  = if decide (u0 ∈ map fst g) then map fst g else map fst g ++ [u0].
Proof.
  induction g as [|[u hs] g IH].
  - cbn [group_add map fst app]. destruct (decide _) as [[]%elem_of_nil|]; done.
  - cbn [group_add map fst]. case_bool_decide as Hu; cbn [map fst].
    + subst. clear IH. destruct (decide _) as [|Hn]; [done|]. exfalso. apply Hn. by left.
    + rewrite IH. destruct (decide (u0 ∈ map fst g)) as [Hin|Hin];
        destruct (decide (u0 ∈ u :: map fst g)) as [Hin'|Hin']; try done.
      * exfalso. apply Hin'. by right.
      * apply elem_of_cons in Hin' as [?|?]; by subst.
Qed.

Lemma group_add_elem u0 h g u hs :
  NoDup (map fst g) →
  (u, hs) ∈ group_add u0 h g
  ↔ (u ≠ u0 ∧ (u, hs) ∈ g)
    ∨ (u = u0 ∧ ((∃ hs0, (u0, hs0) ∈ g ∧ hs = hs0 ++ [h])
                 ∨ ((u0 ∉ map fst g) ∧ hs = [h]))).
Proof.
  induction g as [|[u1 hs1] g IH]; simpl; intros Hnd.
  - rewrite list_elem_of_singleton. split.
    + intros [= -> ->]. right. split; [done|]. right. split; [apply not_elem_of_nil|done].
    + intros [[_ []%elem_of_nil]|[-> [(? & []%elem_of_nil & _)|[_ ->]]]]. done.
  - apply NoDup_cons in Hnd as [Hnotin Hnd]. specialize (IH Hnd).
    case_bool_decide as Hu.
    + subst u1. rewrite !elem_of_cons. split.
      * intros [[= -> ->]|Hin].
        -- right. split; [done|]. left. exists hs1. split; [by left|done].
        -- left. split; [|by right]. intros ->. apply Hnotin.
           apply list_elem_of_fmap. by exists (u0, hs).
      * intros [[Hne [[= ? ?]|Hin]]|[-> [(hs0 & Hin & ->)|[Hn _]]]].
        -- done.
        -- by right.
        -- left. apply elem_of_cons in Hin as [[= ->]|Hin]; [done|].
           exfalso. apply Hnotin. apply list_elem_of_fmap. by exists (u0, hs0).
        -- exfalso. apply Hn. by left.
    + rewrite !elem_of_cons, IH. split.
      * intros [[= -> ->]|[[Hne Hin]|[-> [(hs0 & Hin & ->)|[Hn ->]]]]].
        -- left. split; [done|by left].
        -- left. split; [done|by right].
        -- right. split; [done|]. left. exists hs0. split; [by right|done].
        -- right. split; [done|]. right. split; [|done].
           intros [?|?]; [congruence|done].
      * intros [[Hne [[= -> ->]|Hin]]|[-> [(hs0 & Hin & ->)|[Hn ->]]]].
        -- by left.
        -- right. left. by split.
        -- right. right. split; [done|]. left. exists hs0. split; [|done].
           apply elem_of_cons in Hin as [[= ? ?]|Hin]; [congruence|done].
        -- right. right. split; [done|]. right. split; [|done].
           intros ?. apply Hn. by right.
Qed.

Lemma grouping l :
  let g := foldl (λ result helper, group_add (f helper) helper result) [] l in
  NoDup (map fst g)
  ∧ ∀ u hs, (u, hs) ∈ g ↔ hs = filter (λ h, f h = u) l ∧ hs ≠ [].
Proof.
  induction l as [|h l IH] using rev_ind; cbv zeta in *.
  - simpl. split; [apply NoDup_nil_2|]. intros u hs. split; [by intros []%elem_of_nil|].
    by intros [-> ?].
  - rewrite foldl_snoc.
    set (g := foldl (λ result helper, group_add (f helper) helper result) [] l) in *.
    destruct IH as [Hnd IH].
    assert (Hkey : ∀ u, u ∈ map fst g ↔ filter (λ h, f h = u) l ≠ []).
    { intros u. split.
      - intros ([u' hs] & -> & Hin)%list_elem_of_fmap. simpl.
        apply IH in Hin as [<- ?]. done.
      - intros Hne. apply list_elem_of_fmap. exists (u, filter (λ h, f h = u) l).
        split; [done|]. by apply IH. }
    split.
    + rewrite group_add_keys. destruct (decide _) as [|Hn]; [done|].
      apply NoDup_app. split; [done|]. split; [|apply NoDup_singleton].
      by intros x Hx ->%list_elem_of_singleton.
    + intros u hs. rewrite group_add_elem by done. rewrite filter_app, filter_cons, filter_nil.
      split.
      * intros [[Hne Hin]|[-> [(hs0 & Hin & ->)|[Hn ->]]]].
        -- rewrite decide_False by done. rewrite app_nil_r. by apply IH.
        -- rewrite decide_True by done. apply IH in Hin as [<- _].
           split; [done|]. by destruct hs0.
        -- rewrite decide_True by done. split; [|done].
           destruct (filter (λ h0, f h0 = f h) l) eqn:Hf; [done|].
           exfalso. apply Hn, Hkey. by rewrite Hf.
      * intros [-> Hne]. destruct (decide (f h = u)) as [<-|Hfu].
        -- right. split; [done|].
           destruct (filter (λ h0, f h0 = f h) l) eqn:Hf.
           ++ right. split; [|done]. rewrite Hkey, Hf. by intros ?.
           ++ left. eexists. split; [|done]. apply IH. by rewrite Hf.
        -- left. split; [done|]. rewrite app_nil_r in *. by apply IH.
Qed.
End Grouping.

(** X5. [getHelpersMap()] groups the used helpers by the URL the helper
    table gives them: each URL is a key once, its list is never empty, and
    it holds, in the order of first use, exactly the used helpers that
    have that URL; a URL with no used helper is not a key. *)
Theorem getHelpersMap_groups_by_url `{U : Utils} (s : CompileScope.t) :
  NoDup (map fst (CompileScope.getHelpersMap s))
  ∧ ∀ url hs,
      (url, hs) ∈ CompileScope.getHelpersMap s
      ↔ hs = filter (λ h, JS.get h (CompileScope.helpers s) = url)
               (CompileScope.usedHelpers s)
        ∧ hs ≠ [].
Proof. apply (grouping (λ h, JS.get h (CompileScope.helpers s))). Qed.
(** * The assembled module *)

Section Module.
Context {U : Utils}.
Import CompileScope.

(** [compile()] in one equation: the text, and the warnings delivered. *)
Lemma compile_spec (s : CompileScope.t) :
  compile s
  = (compileRuntime s []
       ++ map (λ entry, importLine (snd entry))
            (filter (λ entry, ComponentImport.used (snd entry) = true
                              ∨ Options.removeUnusedImports (options s) = false)
               (componentsMap s))
       ++ compileRest s [],
     if Options.warn (options s)
     then set_warnings
            (warnings s
             ++ map (unusedWarning (Options.removeUnusedImports (options s)))
                  (unusedImports s)) s
     else s).
Proof.
  unfold compile. rewrite compileComponents_fold, compileImport_spec.
  rewrite compileRest_app, <- app_assoc. unfold unusedImports.
  by destruct (Options.warn (options s)).
Qed.

(** The text depends on the used runtime symbols and helpers, the three
    maps, the body and the options only. *)
Lemma compile_text_ext (s1 s2 : CompileScope.t) :
  options s1 = options s2 → helpers s1 = helpers s2 →
  runtimeSymbols s1 = runtimeSymbols s2 → usedHelpers s1 = usedHelpers s2 →
  body s1 = body s2 → partialsMap s1 = partialsMap s2 →
  componentsMap s1 = componentsMap s2 → namespacesMap s1 = namespacesMap s2 →
  fst (compile s1) = fst (compile s2).
Proof.
  intros Ho Hh Hr Hu Hb Hp Hc Hn. rewrite !compile_spec. cbn [fst].
  unfold compileRuntime, compileRest, compileBody, compileNamespaces, compilePartials,
    compileCssScope, compileHelpers, getHelpersMap, compilePartial, partials, indent.
  by rewrite Ho, Hh, Hr, Hu, Hb, Hp, Hc, Hn.
Qed.

(** X6. A call that is not one of [use], [useHelper], [push],
    [enterNamespace], [checkComponent] or a [set] on the component and
    partial maps leaves the module [compile()] assembles as it is. In
    particular what [exitFunction] returns is part of the module only if
    the caller pushes it. *)
Theorem silent_calls_keep_module (c : call) (s : CompileScope.t) (v : value)
    (s' : CompileScope.t) :
  step c s = Some (v, s') →
  writesModule c = false →
  fst (compile s') = fst (compile s).
Proof.
  intros Hstep Hc.
  destruct (step_registries c s v s' Hstep)
    as (Ho & Hh & Hr & Hu & _ & Hb & Hp & Hm & Hn & _).
  apply compile_text_ext; try done; destruct c; done.
Qed.

(** X7. [push(node)] puts the node last in the module, between two line
    breaks; everything [compile()] wrote before is still there, before
    it. *)
Theorem push_appends_to_module (node : SourceNode) (s : CompileScope.t) :
  fst (compile (push node s)) = fst (compile s) ++ [nl; toString node; nl].
Proof.
  rewrite !compile_spec. cbn [fst]. rewrite <- !app_assoc.
  replace (compileRuntime (push node s) []) with (compileRuntime s []) by by destruct s.
  replace (options (push node s)) with (options s) by by destruct s.
  replace (componentsMap (push node s)) with (componentsMap s) by by destruct s.
  do 2 apply (f_equal2 app eq_refl).
  unfold compileRest.
  assert (Hb : ∀ b, compileBody (push node s) b = compileBody s b ++ [nl; toString node; nl]).
  { intros b. unfold compileBody, push. destruct s; simpl.
    rewrite foldl_snoc. unfold add, addNode, toString. simpl.
    by rewrite <- !app_assoc. }
  rewrite Hb. apply (f_equal2 app); [|done]. by destruct s.
Qed.

(** X8. [compile()] can be called again: the second call returns the
    same module, and delivers the warnings of the first call a second
    time. *)
Theorem compile_again (s : CompileScope.t) :
  fst (compile (snd (compile s))) = fst (compile s)
  ∧ ∃ w, warnings (snd (compile s)) = warnings s ++ w
         ∧ warnings (snd (compile (snd (compile s)))) = warnings s ++ w ++ w.
Proof.
  split.
  - apply compile_text_ext; rewrite compile_spec; cbn [snd];
      by destruct (Options.warn (options s)), s.
  - rewrite !compile_spec. cbn [snd].
    destruct (Options.warn (options s)) eqn:Hw.
    + eexists. split; [by destruct s|].
      destruct s; simpl in *. rewrite Hw. simpl. unfold unusedImports. simpl.
      by rewrite <- app_assoc.
    + rewrite Hw. exists []. by rewrite !app_nil_r.
Qed.

Lemma step_warnings c s v s' :
  step c s = Some (v, s') →
  ∃ w, warnings s' = warnings s ++ w ∧ (Options.warn (options s) = false → w = []).
Proof.
  intros Hstep.
  destruct c; simpl in Hstep;
    try match type of Hstep with
        | context [compile s] =>
            unfold ret in Hstep; rewrite compile_spec in Hstep;
            injection Hstep as <- <-;
            destruct (Options.warn (options s)) eqn:Hw;
              [eexists; split; [by destruct s|done]
              |exists []; by rewrite app_nil_r]
        end.
  all: unfold_methods Hstep.
  all: destruct s; simpl in *.
  all: method_cases.
  all: try (exists []; by rewrite app_nil_r).
  all: eexists; split; [done|]; simpl in *; congruence.
Qed.

(** X9. Warnings are only ever added, and only through the configured
    callback: over any call sequence the warnings delivered before are
    still there, in front, and with no [warn] option nothing is
    delivered. *)
Theorem warnings_need_callback (cs : list call) (s : CompileScope.t)
    (vs : list value) (s' : CompileScope.t) :
  run cs s = Some (vs, s') →
  ∃ w, warnings s' = warnings s ++ w ∧ (Options.warn (options s) = false → w = []).
Proof.
  revert s vs. induction cs as [|c cs IH]; intros s vs Hrun.
  - simpl in Hrun. simplify_eq. exists []. by rewrite app_nil_r.
  - apply run_cons_inv in Hrun as (v & s1 & vs1 & Hc & Hrun & ->).
    destruct (step_warnings c s v s1 Hc) as (w1 & Hw1 & Hn1).
    destruct (IH s1 vs1 Hrun) as (w2 & Hw2 & Hn2).
    destruct (step_registries c s v s1 Hc) as (Ho & _).
    exists (w1 ++ w2). split; [by rewrite Hw2, Hw1, app_assoc|].
    intros Hw. rewrite Hn1, Hn2 by congruence. done.
Qed.
End Module.

Lemma silent_calls_keep_module_witness :
  ∃ v s',
    step (U := fixtureUtils) (EnterFunction "template" None) fresh = Some (v, s')
    ∧ fst (CompileScope.compile (U := fixtureUtils) s')
      = fst (CompileScope.compile (U := fixtureUtils) fresh).
Proof.
  destruct (step (U := fixtureUtils) (EnterFunction "template" None) fresh)
    as [[v s']|] eqn:Hstep; [|by vm_compute in Hstep].
  exists v, s'. split; [done|].
  exact (silent_calls_keep_module (U := fixtureUtils) _ fresh v s' Hstep eq_refl).
Defined.

Lemma warnings_need_callback_witness :
  ∃ vs s',
    run (U := fixtureUtils) [CheckComponent "my-item" 3; Compile] fresh = Some (vs, s')
    ∧ ∃ w, CompileScope.warnings s' = CompileScope.warnings fresh ++ w
           ∧ (Options.warn (CompileScope.options fresh) = false → w = []).
Proof.
  destruct (run (U := fixtureUtils) [CheckComponent "my-item" 3; Compile] fresh)
    as [[vs s']|] eqn:Hrun; [|by vm_compute in Hrun].
  exists vs, s'. split; [done|].
  exact (warnings_need_callback (U := fixtureUtils) _ fresh vs s' Hrun).
Defined.
(** * Numbering *)

Section Dense.
Context {U : Utils}.
Import CompileScope.

(** What a call asks of the two generators of the scope, exactly. *)
Lemma step_symbols c s v s' :
  step c s = Some (v, s') →
  scopeSymbols s'
  = match c with
    | ScopeSymbol name => bumped name (scopeSymbols s)
    | _ => scopeSymbols s
    end
  ∧ globalSymbols s'
    = match c with
      | GlobalSymbol name | EnterFunction name _ => bumped name (globalSymbols s)
      | EnterNamespace uri =>
          if map_has uri (namespacesMap s) then globalSymbols s
          else bumped "ns" (globalSymbols s)
      | _ => globalSymbols s
      end
  ∧ match c with
    | ScopeSymbol name =>
        v = VString (fst (generate (Options.scope (options s)) name (scopeSymbols s)))
    | GlobalSymbol name | EnterFunction name _ =>
        v = VString (fst (generate (Options.scope (options s)) name (globalSymbols s)))
    | _ => True
    end.
Proof.
  intros Hstep.
  destruct c; simpl in Hstep;
    try match type of Hstep with
        | context [compile s] =>
            unfold ret in Hstep;
            destruct (compile_warnings s) as [w Hw];
            destruct (compile s) as [out s1]; simpl in *;
            injection Hstep as <- <-; by rewrite Hw
        end.
  all: unfold map_has.
  all: unfold_methods Hstep.
  all: destruct s; simpl in *.
  all: method_cases.
  all: done.
Qed.

Lemma requested_parts names g :
  prefix (requested names g) = prefix g ∧ suffix (requested names g) = suffix g.
Proof.
  revert g. induction names as [|n names IH]; intros g; [done|].
  unfold requested in *. simpl. by destruct (IH (bumped n g)).
Qed.

Lemma requested_counted names g : counted g → counted (requested names g).
Proof.
  revert g. induction names as [|n names IH]; intros g Hg; [done|].
  apply IH. by apply bumped_counted.
Qed.

Lemma next_requested names g x :
  JS.inherited x = false → counted g →
  next (requested names g) x = (next g x + occurrences x names)%N.
Proof.
  intros Hx. revert g. induction names as [|n names IH]; intros g Hg.
  - unfold occurrences. simpl. lia.
  - unfold requested in *. cbn [foldl]. rewrite IH by by apply bumped_counted.
    unfold occurrences. rewrite filter_cons.
    destruct (decide (n = x)) as [->|Hne]; simpl.
    + rewrite next_bumped by done. lia.
    + f_equal. unfold next. by rewrite bump_lookup_ne.
Qed.

Lemma run_generators cs :
  ∀ seen s vs s',
    run cs s = Some (vs, s') →
    (∀ uri, uri ∈ seen ↔ uri ∈ map fst (namespacesMap s)) →
    scopeSymbols s' = requested (scopeRequests cs) (scopeSymbols s)
    ∧ globalSymbols s' = requested (globalRequests seen cs) (globalSymbols s)
    ∧ options s' = options s.
Proof.
  induction cs as [|c cs IH]; intros seen s vs s' Hrun Hseen.
  - simpl in Hrun. by simplify_eq.
  - apply run_cons_inv in Hrun as (v & s1 & vs1 & Hc & Hrun & ->).
    destruct (step_symbols c s v s1 Hc) as (Hsc & Hgl & _).
    pose proof (step_namespace_keys c s v s1 Hc) as Hk.
    destruct (step_registries c s v s1 Hc) as (Ho & _).
    assert (Hhas : ∀ uri, map_has uri (namespacesMap s) = bool_decide (uri ∈ seen)).
    { intros uri. unfold map_has.
      destruct (map_get uri (namespacesMap s)) eqn:Hg.
      - symmetry. apply bool_decide_eq_true. apply Hseen.
        destruct (decide (uri ∈ map fst (namespacesMap s))) as [|Hn]; [done|].
        apply map_get_elem in Hn. congruence.
      - symmetry. apply bool_decide_eq_false. rewrite Hseen. by apply map_get_elem. }
    destruct c;
      try (destruct (IH seen s1 vs1 s' Hrun) as (H1 & H2 & H3);
           [by intros uri; rewrite Hk|];
           rewrite H1, H2, H3, Hsc, Hgl; done).
    rewrite Hhas in Hk, Hgl. cbn [globalRequests].
    case_bool_decide as Hin.
    + destruct (IH seen s1 vs1 s' Hrun) as (H1 & H2 & H3);
        [by intros u; rewrite Hk|].
      by rewrite H1, H2, H3, Hsc, Hgl.
    + destruct (IH (uri :: seen) s1 vs1 s' Hrun) as (H1 & H2 & H3).
      { intros u. rewrite Hk, elem_of_cons, elem_of_app, list_elem_of_singleton, Hseen.
        tauto. }
      by rewrite H1, H2, H3, Hsc, Hgl.
Qed.

(** X10. The numbers of a generator are consecutive from 0: a request
    for a name that is not an inherited member gets the number of earlier
    requests for that name. For the global generator the requests are
    those of [globalSymbol], those of [enterFunction], and one for "ns"
    each time [enterNamespace] meets a new URI; for the scope generator,
    those of [scopeSymbol]. *)
Theorem symbols_numbered_consecutively (defaultOptions : Options.t)
    (options : Options.user) (cs : list call) (vs : list value)
    (s' : CompileScope.t) (i : nat) (c : call) (x : string) :
  let s := constructor defaultOptions options in
  run cs s = Some (vs, s') →
  cs !! i = Some c →
  JS.inherited x = false →
  (c = ScopeSymbol x →
   vs !! i = Some (VString (symbolText ScopeKind s x
                              (occurrences x (scopeRequests (take i cs))))))
  ∧ (c = GlobalSymbol x ∨ (∃ injectorSymbol, c = EnterFunction x injectorSymbol) →
     vs !! i = Some (VString (symbolText GlobalKind s x
                                (occurrences x (globalRequests [] (take i cs)))))).
Proof.
  intros s Hrun Hi Hx.
  pose proof (take_drop_middle cs i c Hi) as Hsplit.
  rewrite <- Hsplit in Hrun.
  apply run_app_inv in Hrun as (vs1 & s1 & vs2 & Hrun1 & Hrun2 & ->).
  apply run_cons_inv in Hrun2 as (v & s2 & vs3 & Hc & _ & ->).
  assert (Hlen : length vs1 = i).
  { assert (Hl : ∀ cs0 s0 vs0 s0', run cs0 s0 = Some (vs0, s0') → length vs0 = length cs0).
    { induction cs0 as [|c0 cs0 IH]; intros s0 vs0 s0' Hr.
      - simpl in Hr. by simplify_eq.
      - apply run_cons_inv in Hr as (? & ? & ? & _ & Hr & ->). simpl. f_equal. eauto. }
    rewrite (Hl _ _ _ _ Hrun1), length_take. apply lookup_lt_Some in Hi. lia. }
  assert (Hv : (vs1 ++ v :: vs3) !! i = Some v).
  { rewrite lookup_app_r by lia. by replace (i - length vs1) with 0 by lia. }
  rewrite Hv.
  destruct (run_generators (take i cs) [] s vs1 s1 Hrun1) as (Hsc & Hgl & Ho).
  { intros uri. simpl. done. }
  destruct (step_symbols c s1 v s2 Hc) as (_ & _ & Hval).
  split.
  - intros ->. rewrite Hval, Hsc. f_equal. f_equal.
    rewrite generate_counted;
      [|done|apply requested_counted, (constructor_counted ScopeKind)].
    cbn [fst]. rewrite next_requested by
      (done || apply (constructor_counted ScopeKind)).
    unfold symbolText. cbn [generatorOf]. rewrite Ho.
    destruct (requested_parts (scopeRequests (take i cs)) (scopeSymbols s)) as [-> ->].
    done.
  - intros Hreq.
    assert (Hval' : v = VString (fst (generate (Options.scope (CompileScope.options s1)) x
                                        (globalSymbols s1)))).
    { by destruct Hreq as [->|[inj ->]]. }
    rewrite Hval', Hgl. f_equal. f_equal.
    rewrite generate_counted;
      [|done|apply requested_counted, (constructor_counted GlobalKind)].
    cbn [fst]. rewrite next_requested by
      (done || apply (constructor_counted GlobalKind)).
    unfold symbolText. cbn [generatorOf]. rewrite Ho.
    destruct (requested_parts (globalRequests [] (take i cs)) (globalSymbols s)) as [-> ->].
    done.
Qed.


Lemma bumped_uncounted name g : uncounted g → uncounted (bumped name g).
Proof.
  intros Hg name' Hn'. destruct (decide (name = name')) as [->|Hne].
  - unfold bumped, bump, JS.has, JS.get, JS.set, increment. simpl.
    rewrite Hn', orb_true_r.
    destruct (String.eqb name' "__proto__") eqn:Hp.
    + destruct (Hg name' Hn') as [Hl|[_ Hl]]; [by left|congruence].
    + right. split; [|done]. rewrite lookup_insert_eq.
      by destruct (Hg name' Hn') as [->|[-> _]].
  - rewrite bump_lookup_ne by done. by apply Hg.
Qed.

Lemma requested_uncounted names g : uncounted g → uncounted (requested names g).
Proof.
  revert g. induction names as [|n names IH]; intros g Hg; [done|].
  apply IH. by apply bumped_uncounted.
Qed.

Lemma generate_uncounted scope name g :
  JS.inherited name = true → uncounted g →
  fst (generate scope name g)
  = _getPart scope (inheritedNumber name) (prefix g) +:+ name
    +:+ _getPart scope (inheritedNumber name) (suffix g).
Proof.
  intros Hn Hg. unfold generate. cbn [fst].
  assert (Hget : JS.get name (bump name (_symbols g)) = inheritedNumber name).
  { destruct (bumped_uncounted name g Hg name Hn) as [Hl|[Hl Hp]];
      unfold bumped in Hl; simpl in Hl; unfold JS.get, inheritedNumber; rewrite Hl.
    - rewrite Hn. destruct (String.eqb name "__proto__") eqn:Hp; [done|].
      exfalso. revert Hl. unfold bump, JS.has, JS.set. rewrite Hn, orb_true_r, Hp.
      by rewrite lookup_insert_eq.
    - by rewrite Hp. }
  by rewrite Hget.
Qed.

(** X11. For the name of an inherited member of a plain object
    ([toString], [constructor], [__proto__], ...) a generator has no
    count: every request to [globalSymbol] or [scopeSymbol] for such a
    name, at any point of a compilation, returns one and the same symbol,
    made with [NaN] (or with the prototype object, for [__proto__]) in
    the place of the number. *)
Theorem inherited_names_share_one_symbol (defaultOptions : Options.t)
    (options : Options.user) (cs : list call) (vs : list value)
    (s' : CompileScope.t) (k : symbolKind) (i : nat) (x : string) :
  let s := constructor defaultOptions options in
  run cs s = Some (vs, s') →
  JS.inherited x = true →
  cs !! i = Some (symbolCall k x) →
  vs !! i = Some (VString (symbolTextAt k s x (inheritedNumber x))).
Proof.
  intros s Hrun Hx Hi.
  pose proof (take_drop_middle cs i _ Hi) as Hsplit.
  rewrite <- Hsplit in Hrun.
  apply run_app_inv in Hrun as (vs1 & s1 & vs2 & Hrun1 & Hrun2 & ->).
  apply run_cons_inv in Hrun2 as (v & s2 & vs3 & Hc & _ & ->).
  assert (Hlen : length vs1 = i).
  { assert (Hl : ∀ cs0 s0 vs0 s0', run cs0 s0 = Some (vs0, s0') → length vs0 = length cs0).
    { induction cs0 as [|c0 cs0 IH]; intros s0 vs0 s0' Hr.
      - simpl in Hr. by simplify_eq.
      - apply run_cons_inv in Hr as (? & ? & ? & _ & Hr & ->). simpl. f_equal. eauto. }
    rewrite (Hl _ _ _ _ Hrun1), length_take. apply lookup_lt_Some in Hi. lia. }
  assert (Hv : (vs1 ++ v :: vs3) !! i = Some v).
  { rewrite lookup_app_r by lia. by replace (i - length vs1) with 0 by lia. }
  rewrite Hv.
  destruct (run_generators (take i cs) [] s vs1 s1 Hrun1) as (Hsc & Hgl & Ho).
  { intros uri. simpl. done. }
  destruct (step_symbols _ s1 v s2 Hc) as (_ & _ & Hval).
  assert (Hnew : ∀ k0, uncounted (generatorOf k0 s)).
  { intros k0 name _. left. destruct k0; simpl; by rewrite lookup_empty. }
  unfold symbolTextAt.
  destruct k; cbn [symbolCall generatorOf] in *; rewrite Hval; do 2 f_equal.
  - rewrite Hgl, generate_uncounted, Ho;
      [|done|apply requested_uncounted, (Hnew GlobalKind)].
    by destruct (requested_parts (globalRequests [] (take i cs)) (globalSymbols s))
      as [-> ->].
  - rewrite Hsc, generate_uncounted, Ho;
      [|done|apply requested_uncounted, (Hnew ScopeKind)].
    by destruct (requested_parts (scopeRequests (take i cs)) (scopeSymbols s))
      as [-> ->].
Qed.
End Dense.

Lemma symbols_numbered_consecutively_witness :
  ∃ vs s',
    run (U := fixtureUtils)
      [GlobalSymbol "ns"; EnterNamespace "uri:a"; EnterFunction "ns" None] fresh
    = Some (vs, s')
    ∧ vs !! 2%nat = Some (VString "$$ns2").
Proof.
  destruct (run (U := fixtureUtils)
              [GlobalSymbol "ns"; EnterNamespace "uri:a"; EnterFunction "ns" None] fresh)
    as [[vs s']|] eqn:Hrun; [|by vm_compute in Hrun].
  exists vs, s'. split; [done|].
  exact (proj2 (symbols_numbered_consecutively (U := fixtureUtils) Options.defaultOptions
                  Options.no_options _ vs s' 2 (EnterFunction "ns" None) "ns"
                  Hrun eq_refl eq_refl)
           (or_intror (ex_intro _ None eq_refl))).
Defined.

Lemma inherited_names_share_one_symbol_witness :
  ∃ vs s',
    run (U := fixtureUtils)
      [GlobalSymbol "toString"; GlobalSymbol "a"; GlobalSymbol "toString"] fresh
    = Some (vs, s')
    ∧ vs !! 0%nat = Some (VString "$$toStringNaN")
    ∧ vs !! 2%nat = Some (VString "$$toStringNaN").
Proof.
  destruct (run (U := fixtureUtils)
              [GlobalSymbol "toString"; GlobalSymbol "a"; GlobalSymbol "toString"] fresh)
    as [[vs s']|] eqn:Hrun; [|by vm_compute in Hrun].
  exists vs, s'. split; [done|]. split.
  - exact (inherited_names_share_one_symbol (U := fixtureUtils) Options.defaultOptions
             Options.no_options _ vs s' GlobalKind 0 "toString" Hrun eq_refl eq_refl).
  - exact (inherited_names_share_one_symbol (U := fixtureUtils) Options.defaultOptions
             Options.no_options _ vs s' GlobalKind 2 "toString" Hrun eq_refl eq_refl).
Defined.
(** * One function context across nested functions *)

Section Focus.
Context {U : Utils}.
Import CompileScope.
Context {A : Type} (π : FunctionContext.t → A) (τ : string → call → A → A).
Hypothesis step_current :
  ∀ c s v s' f parent,
    step c s = Some (v, s') → func s = f :: parent →
    match c with
    | EnterFunction _ _ | ExitFunction _ => True
    | _ => ∃ f', func s' = f' :: parent
             ∧ π f' = τ (Options.scope (options s)) c (π f)
    end.

(** A part of a function context that each call made at its level
    changes in a known way is, after a call sequence, what these calls
    make of it one after the other: the calls made in nested functions
    do not reach it. *)
Lemma focus cs :
  ∀ d d' s vs s' pre f rest,
    run cs s = Some (vs, s') →
    depth_after d cs = Some d' →
    func s = pre ++ f :: rest → length pre = d →
    ∃ pre' f', func s' = pre' ++ f' :: rest ∧ length pre' = d'
      ∧ options s' = options s
      ∧ π f' = foldl (λ a c, τ (Options.scope (options s)) c a) (π f) (ownCalls d cs).
Proof.
  induction cs as [|c cs IH]; intros d d' s vs s' pre f rest Hrun Hdepth Hfunc Hlen.
  - simpl in *. simplify_eq. by exists pre, f.
  - apply run_cons_inv in Hrun as (v & s1 & vs1 & Hstep & Hrun1 & ->).
    pose proof (step_func _ _ _ _ Hstep) as Hc.
    destruct (step_registries c s v s1 Hstep) as (Ho & _).
    assert (Hother :
      (func s = [] ∧ func s1 = []
       ∨ ∃ f0 f' parent, func s = f0 :: parent ∧ func s1 = f' :: parent
           ∧ FunctionContext.symbol f' = FunctionContext.symbol f0
           ∧ FunctionContext.injector f' = FunctionContext.injector f0
           ∧ (marks c = false →
              FunctionContext.scopeArg f' = FunctionContext.scopeArg f0)
           ∧ (∀ x a, FunctionContext.updateDeclarations f0 !! x = Some a →
                     FunctionContext.updateDeclarations f' !! x = Some a)) →
      (∀ f0 parent, func s = f0 :: parent →
         ∃ f', func s1 = f' :: parent
           ∧ π f' = τ (Options.scope (options s)) c (π f0)) →
      depth_after d cs = Some d' →
      ownCalls d (c :: cs) = (if Nat.eqb d 0 then c :: ownCalls d cs else ownCalls d cs) →
      ∃ pre' f', func s' = pre' ++ f' :: rest ∧ length pre' = d'
        ∧ options s' = options s
        ∧ π f' = foldl (λ a c, τ (Options.scope (options s)) c a) (π f)
                   (ownCalls d (c :: cs))).
    { intros [[Hnil _]|(f0 & f1 & parent & Hs & Hs1 & _)] Hcur Hd Hown.
      { rewrite Hfunc in Hnil. by destruct pre. }
      rewrite Hown. rewrite Hfunc in Hs.
      destruct pre as [|h pre]; simpl in Hs, Hlen; injection Hs as <- <-; subst d.
      - destruct (Hcur f rest Hfunc) as (f1' & Hs1' & Hπ).
        rewrite Hs1 in Hs1'. injection Hs1' as <-.
        destruct (IH 0 d' s1 vs1 s' [] f1 rest Hrun1 Hd Hs1 eq_refl)
          as (pre' & f' & ? & ? & Ho' & Hf').
        exists pre', f'. split; [done|]. split; [done|]. split; [congruence|].
        cbn [Nat.eqb foldl]. rewrite Hf', Ho, Hπ. done.
      - destruct (IH (S (length pre)) d' s1 vs1 s' (f1 :: pre) f rest Hrun1 Hd)
          as (pre' & f' & ? & ? & Ho' & Hf'); [by rewrite Hs1|done|].
        exists pre', f'. split; [done|]. split; [done|]. split; [congruence|].
        cbn [Nat.eqb]. by rewrite Hf', Ho. }
    assert (Hcur : ∀ f0 parent, func s = f0 :: parent →
              match c with
              | EnterFunction _ _ | ExitFunction _ => True
              | _ => ∃ f', func s1 = f' :: parent
                       ∧ π f' = τ (Options.scope (options s)) c (π f0)
              end).
    { intros f0 parent Hs. by apply (step_current c s v s1 f0 parent). }
    destruct c; simpl in Hdepth;
      try (apply Hother; [exact Hc|exact Hcur|exact Hdepth|done]).
    + (* enterFunction *)
      destruct Hc as (g & Hs1 & _).
      destruct (IH (S d) d' s1 vs1 s' (g :: pre) f rest Hrun1 Hdepth)
        as (pre' & f' & ? & ? & Ho' & Hf');
        [by rewrite Hs1, Hfunc|simpl; lia|].
      exists pre', f'. split; [done|]. split; [done|]. split; [congruence|].
      cbn [ownCalls]. by rewrite Hf', Ho.
    + (* exitFunction *)
      destruct Hc as (h & Hs).
      destruct d as [|d]; [done|].
      rewrite Hfunc in Hs. destruct pre as [|h' pre]; simpl in Hs, Hlen; [done|].
      injection Hs as <- Hs. injection Hlen as Hlen.
      destruct (IH d d' s1 vs1 s' pre f rest Hrun1 Hdepth)
        as (pre' & f' & ? & ? & Ho' & Hf'); [done..|].
      exists pre', f'. split; [done|]. split; [done|]. split; [congruence|].
      cbn [ownCalls]. by rewrite Hf', Ho.
Qed.
End Focus.

Section OwnLevel.
Context {U : Utils}.
Import CompileScope.


Lemma step_update c s v s' f parent :
  step c s = Some (v, s') → func s = f :: parent →
  match c with
  | EnterFunction _ _ | ExitFunction _ => True
  | _ => ∃ f', func s' = f' :: parent
           ∧ updatePhase f' = updateStep (Options.scope (options s)) c (updatePhase f)
  end.
Proof.
  intros Hstep Hf.
  destruct c; simpl in Hstep; try done;
    try match type of Hstep with
        | context [compile s] =>
            unfold ret in Hstep;
            destruct (compile_warnings s) as [w Hw];
            destruct (compile s) as [out s1]; simpl in *;
            injection Hstep as <- <-; rewrite Hw; simpl; by exists f
        end.
  all: unfold updatePhase.
  all: unfold_methods Hstep.
  all: destruct s; simpl in *; subst; simpl in *.
  all: method_cases.
  all: try by eexists.
  all: eexists; split; [done|]; simpl.
  all: repeat match goal with H : _ = _ |- _ => rewrite H end; done.
Qed.

Lemma enterFunction_context name injectorSymbol s :
  ∃ g, func (snd (enterFunction name injectorSymbol s)) = g :: func s
    ∧ FunctionContext.localSymbols g = newSymbolGenerator (PartString "") numGenerator
    ∧ FunctionContext.update g = []
    ∧ options (snd (enterFunction name injectorSymbol s)) = options s.
Proof.
  unfold enterFunction. destruct (globalSymbol name s) as [symbol s0] eqn:Hg.
  unfold globalSymbol in Hg. destruct (generate _ _ _). injection Hg as <- <-.
  by eexists.
Qed.



Lemma updateStep_fold scope l :
  ∀ update declarations symbols,
    ∃ decls declarations' symbols',
      foldl (λ a c, updateStep scope c a) (update, declarations, symbols) l
      = (decls ++ update ++ pushedChunks l, declarations', symbols')
      ∧ Forall (λ line, ∃ alias name expr,
                  UpdateSymbol name expr ∈ l
                  ∧ line = "const " +:+ alias +:+ " = " +:+ expr +:+ ";") decls.
Proof.
  induction l as [|c l IH]; intros update declarations symbols.
  - exists [], declarations, symbols. simpl. by rewrite app_nil_r.
  - cbn [foldl].
    assert (Hsame : updateStep scope c (update, declarations, symbols)
                    = (update, declarations, symbols) →
                    pushedChunks (c :: l) = pushedChunks l →
                    ∃ decls declarations' symbols',
                      foldl (λ a c, updateStep scope c a)
                        (updateStep scope c (update, declarations, symbols)) l
                      = (decls ++ update ++ pushedChunks (c :: l), declarations', symbols')
                      ∧ Forall (λ line, ∃ alias name expr,
                                  UpdateSymbol name expr ∈ c :: l
                                  ∧ line = "const " +:+ alias +:+ " = " +:+ expr +:+ ";")
                          decls).
    { intros -> ->.
      destruct (IH update declarations symbols) as (ds & d' & g' & Hfold & Hall).
      exists ds, d', g'. split; [done|].
      eapply Forall_impl; [exact Hall|]. intros line (alias & n & e & Hin & ->).
      exists alias, n, e. split; [by right|done]. }
    destruct c; try (by apply Hsame).
    + (* pushUpdate *)
      cbn [updateStep]. destruct (IH (update ++ [chunk]) declarations symbols)
        as (ds & d' & g' & Hfold & Hall).
      exists ds, d', g'. split; [etrans; [exact Hfold|by rewrite <- app_assoc]|].
      eapply Forall_impl; [exact Hall|]. intros line (alias & n & e & Hin & ->).
      exists alias, n, e. split; [by right|done].
    + (* updateSymbol *)
      match goal with
      | |- context [UpdateSymbol ?n ?e :: l] => rename n into nm, e into ex
      end.
      destruct (negb (JS.has ex declarations)) eqn:Hhas;
        [|apply Hsame; [cbn [updateStep]; by rewrite Hhas|done]].
      cbn [updateStep]. rewrite Hhas.
      destruct (generate scope nm symbols) as [symbol g]. cbv beta iota zeta.
      destruct (IH (("const " +:+ symbol +:+ " = " +:+ ex +:+ ";") :: update)
                  (JS.set ex symbol declarations) g) as (ds & d' & g' & Hfold & Hall).
      exists (ds ++ ["const " +:+ symbol +:+ " = " +:+ ex +:+ ";"]), d', g'.
      split; [etrans; [exact Hfold|by rewrite <- app_assoc]|].
      apply Forall_app. split.
      * eapply Forall_impl; [exact Hall|]. intros line (alias & n & e & Hin & ->).
        exists alias, n, e. split; [by right|done].
      * apply Forall_singleton. exists symbol, nm, ex. split; [by left|done].
Qed.

(** X13. The update list of a function, which [exitFunction] formats
    into the update function, is made of the alias declarations
    [updateSymbol] has put in front, followed by the chunks given to
    [pushUpdate] in this function itself, in call order. Calls made in
    nested functions add nothing to it. *)
Theorem update_list_layout (s : CompileScope.t) (name : string)
    (injectorSymbol : option string) (cs : list call) (vs : list value)
    (s1 : CompileScope.t) :
  run cs (snd (enterFunction name injectorSymbol s)) = Some (vs, s1) →
  depth_after 0 cs = Some 0 →
  ∃ f decls,
    func s1 = f :: func s
    ∧ FunctionContext.update f = decls ++ pushedChunks (ownCalls 0 cs)
    ∧ Forall (λ line, ∃ alias name expr,
                UpdateSymbol name expr ∈ ownCalls 0 cs
                ∧ line = "const " +:+ alias +:+ " = " +:+ expr +:+ ";") decls.
Proof.
  intros Hrun Hdepth.
  destruct (enterFunction_context name injectorSymbol s) as (g & Hg & _ & Hupd & _).
  destruct (focus updatePhase updateStep)
    with (cs := cs) (d := 0) (d' := 0) (s := snd (enterFunction name injectorSymbol s))
         (vs := vs) (s' := s1) (pre := @nil FunctionContext.t) (f := g) (rest := func s)
    as (pre' & f' & Hs1 & Hlen & _ & Hf'); try done.
  { intros c s0 v s0' f0 parent. apply step_update. }
  destruct pre'; [|done]. simpl in Hs1.
  unfold updatePhase in Hf' at 2. rewrite Hupd in Hf'.
  destruct (updateStep_fold
              (Options.scope (options (snd (enterFunction name injectorSymbol s))))
              (ownCalls 0 cs) [] (FunctionContext.updateDeclarations g)
              (FunctionContext.updateSymbols g)) as (ds & d' & g' & Hfold & Hall).
  pose proof (eq_trans Hf' Hfold) as Heq.
  unfold updatePhase in Heq. injection Heq as Hu _ _.
  exists f', ds. by rewrite Hu.
Qed.
End OwnLevel.


Lemma update_list_layout_witness :
  ∃ vs s1 f decls,
    run (U := fixtureUtils)
      [PushUpdate "one();"; UpdateSymbol "a" "host.x"; EnterFunction "inner" None;
       PushUpdate "inner();"; ExitFunction []; PushUpdate "two();"]
      (snd (CompileScope.enterFunction "outer" None fresh)) = Some (vs, s1)
    ∧ CompileScope.func s1 = f :: CompileScope.func fresh
    ∧ FunctionContext.update f = decls ++ ["one();"; "two();"].
Proof.
  destruct (run (U := fixtureUtils)
      [PushUpdate "one();"; UpdateSymbol "a" "host.x"; EnterFunction "inner" None;
       PushUpdate "inner();"; ExitFunction []; PushUpdate "two();"]
      (snd (CompileScope.enterFunction "outer" None fresh)))
    as [[vs s1]|] eqn:Hrun; [|by vm_compute in Hrun].
  destruct (update_list_layout (U := fixtureUtils) fresh "outer" None _ vs s1 Hrun eq_refl)
    as (f & decls & Hf & Hu & _).
  by exists vs, s1, f, decls.
Defined.
(** * Component imports and elements *)

Section Components.
Context {U : Utils}.
Import CompileScope.

Lemma map_get_NoDup {V} (k : string) (v : V) (m : list (string * V)) :
  NoDup (map fst m) → (k, v) ∈ m → map_get k m = Some v.
Proof.
  induction m as [|[k' v'] m IH]; simpl; intros Hnd Hin.
  - by apply elem_of_nil in Hin.
  - apply NoDup_cons in Hnd as [Hn Hnd].
    apply elem_of_cons in Hin as [[= <- <-]|Hin].
    + by rewrite String.eqb_refl.
    + destruct (String.eqb_spec k' k) as [->|Hne]; [|by apply IH].
      exfalso. apply Hn. apply list_elem_of_fmap. by exists (k, v).
Qed.

Lemma step_components_NoDup c s v s' :
  step c s = Some (v, s') →
  NoDup (map fst (componentsMap s)) → NoDup (map fst (componentsMap s')).
Proof.
  intros Hstep Hnd.
  destruct (step_registries c s v s' Hstep) as (_ & _ & _ & _ & _ & _ & _ & Hm & _).
  rewrite Hm. destruct c; try done.
  - destruct (map_get tagName (componentsMap s)); [|done]. by apply map_set_NoDup.
  - by apply map_set_NoDup.
Qed.

(** Once registered, a tag name stays registered; once marked as used,
    its import stays marked until it is registered again. *)
Lemma step_component_used tag c s v s' :
  step c s = Some (v, s') →
  (is_Some (map_get tag (componentsMap s)) → is_Some (map_get tag (componentsMap s')))
  ∧ (registers tag c = false →
     (∃ data, map_get tag (componentsMap s) = Some data
              ∧ ComponentImport.used data = true) →
     ∃ data, map_get tag (componentsMap s') = Some data
             ∧ ComponentImport.used data = true).
Proof.
  intros Hstep.
  destruct (step_registries c s v s' Hstep) as (_ & _ & _ & _ & _ & _ & _ & Hm & _).
  rewrite Hm. destruct c; try done.
  - destruct (map_get tagName (componentsMap s)) as [d|] eqn:Hg; [|done].
    destruct (decide (tagName = tag)) as [->|Hne].
    + rewrite map_get_set. split; [by eauto|]. intros _ _. by eexists.
    + by rewrite map_get_set_ne.
  - simpl. destruct (decide (name = tag)) as [->|Hne].
    + rewrite map_get_set. split; [by eauto|].
      by rewrite bool_decide_eq_true_2.
    + by rewrite map_get_set_ne.
Qed.

Lemma run_component_used tag cs :
  ∀ s vs s',
    run cs s = Some (vs, s') →
    existsb (registers tag) cs = false →
    NoDup (map fst (componentsMap s))
    ∧ (∃ data, map_get tag (componentsMap s) = Some data
               ∧ ComponentImport.used data = true) →
    NoDup (map fst (componentsMap s'))
    ∧ ∃ data, map_get tag (componentsMap s') = Some data
              ∧ ComponentImport.used data = true.
Proof.
  induction cs as [|c cs IH]; intros s vs s' Hrun Hcs H0.
  - simpl in Hrun. by simplify_eq.
  - apply run_cons_inv in Hrun as (v & s1 & vs1 & Hc & Hrun & ->).
    simpl in Hcs. apply orb_false_iff in Hcs as [Hc0 Hcs].
    apply (IH s1 vs1 s' Hrun Hcs). split.
    + apply (step_components_NoDup c s v s1 Hc), H0.
    + apply (step_component_used tag c s v s1 Hc); [done|apply H0].
Qed.

Lemma run_registered tag cs :
  ∀ s vs s',
    run cs s = Some (vs, s') →
    existsb (registers tag) cs = true ∨ is_Some (map_get tag (componentsMap s)) →
    is_Some (map_get tag (componentsMap s')).
Proof.
  induction cs as [|c cs IH]; intros s vs s' Hrun Hreg.
  - simpl in Hrun. simplify_eq. by destruct Hreg.
  - apply run_cons_inv in Hrun as (v & s1 & vs1 & Hc & Hrun & ->).
    apply (IH s1 vs1 s' Hrun). simpl in Hreg.
    destruct Hreg as [[Hreg|Hreg]%orb_true_iff|Hreg]; [|by left|].
    + right. destruct c; try done. simpl in Hreg.
      apply bool_decide_eq_true in Hreg as ->.
      destruct (step_registries _ s v s1 Hc) as (_ & _ & _ & _ & _ & _ & _ & Hm & _).
      rewrite Hm, map_get_set. by eexists.
    + right. by apply (step_component_used tag c s v s1 Hc).
Qed.

(** X14. Once [checkComponent] has met a tag name that has a component
    import, [compile()] does not count that import as unused, whatever
    calls are made in between, as long as the tag name is not registered
    anew: no unused-import warning is delivered for it and its import
    line is written. *)
Theorem checked_component_is_used (defaultOptions : Options.t) (options : Options.user)
    (before : list call) (tagName : string) (pos : N) (after : list call)
    (vs : list value) (s' : CompileScope.t) :
  run (before ++ CheckComponent tagName pos :: after) (constructor defaultOptions options)
  = Some (vs, s') →
  existsb (registers tagName) before = true →
  existsb (registers tagName) after = false →
  ∀ entry, entry ∈ unusedImports s' → fst entry ≠ tagName.
Proof.
  intros Hrun Hbefore Hafter.
  apply run_app_inv in Hrun as (vs1 & s1 & vs2 & Hrun1 & Hrun2 & ->).
  apply run_cons_inv in Hrun2 as (v & s2 & vs3 & Hc & Hrun2 & ->).
  simpl in Hc. injection Hc as <- <-.
  assert (Hnd : NoDup (map fst (componentsMap s1))).
  { refine (run_invariant (λ s0, NoDup (map fst (componentsMap s0)))
              _ before _ vs1 s1 Hrun1 _); [|apply NoDup_nil_2].
    intros c s0 v0 s0' Hc. by apply (step_components_NoDup c s0 v0 s0'). }
  destruct (run_registered tagName before _ vs1 s1 Hrun1 (or_introl Hbefore))
    as [d Hd].
  assert (Hgoal : NoDup (map fst (componentsMap s'))
                  ∧ ∃ data, map_get tagName (componentsMap s') = Some data
                            ∧ ComponentImport.used data = true).
  { apply (run_component_used tagName after _ vs3 s' Hrun2 Hafter).
    unfold checkComponent. rewrite Hd. simpl.
    split; [by apply map_set_NoDup|]. rewrite map_get_set. by eexists. }
  destruct Hgoal as (Hnd' & data & Hget & Hused).
  intros [name item] Hin Hname. simpl in Hname. subst name.
  unfold unusedImports in Hin. apply list_elem_of_filter in Hin as [Hu Hin].
  simpl in Hu. rewrite (map_get_NoDup tagName item _ Hnd' Hin) in Hget.
  congruence.
Qed.


(** X16. [exitElement()] looks for the element through the enclosing
    functions but writes to the current function: called in a function
    that has no element open itself, inside an element of an enclosing
    function, it returns that outer element, makes the element around it
    the current element of the inner function, and leaves the outer
    element open in the function that opened it. *)
Theorem exitElement_in_nested_function (s : CompileScope.t) (f : FunctionContext.t)
    (parent : list FunctionContext.t) (e : ElementContext.t)
    (around : list ElementContext.t) :
  func s = f :: parent →
  FunctionContext.element f = [] →
  element_of parent = Some (e, around) →
  ∃ s', exitElement s = Some (e, s')
    ∧ currentElement s' = head around
    ∧ tail (func s') = parent.
Proof.
  intros Hf Hnone Hout. unfold exitElement, element, currentElement, set_current.
  rewrite Hf. simpl. rewrite Hnone, Hout. eexists. split; [done|].
  destruct s; simpl in *. by subst.
Qed.
End Components.

Lemma checked_component_is_used_witness :
  ∃ vs s',
    run (U := fixtureUtils)
      ([ComponentsMapSet "my-item" "MyItem" "./my-item.html" 7]
       ++ CheckComponent "my-item" 3 :: [CheckComponent "x-y" 9; InComponent]) fresh
    = Some (vs, s')
    ∧ ∀ entry, entry ∈ unusedImports s' → fst entry ≠ "my-item".
Proof.
  destruct (run (U := fixtureUtils)
      ([ComponentsMapSet "my-item" "MyItem" "./my-item.html" 7]
       ++ CheckComponent "my-item" 3 :: [CheckComponent "x-y" 9; InComponent]) fresh)
    as [[vs s']|] eqn:Hrun; [|by vm_compute in Hrun].
  exists vs, s'. split; [done|].
  exact (checked_component_is_used (U := fixtureUtils) Options.defaultOptions
           Options.no_options _ "my-item" 3 _ vs s' Hrun eq_refl eq_refl).
Defined.


Lemma exitElement_in_nested_function_witness :
  ∃ e s',
    CompileScope.exitElement
      (default fresh
         (exec (U := fixtureUtils)
            [EnterFunction "template" None;
             EnterElement "div" "elem" {| staticContent := true; slotContent := false |};
             EnterFunction "inner" None] fresh))
    = Some (e, s')
    ∧ currentElement s' = None.
Proof.
  edestruct (exitElement_in_nested_function
               (default fresh
                  (exec (U := fixtureUtils)
                     [EnterFunction "template" None;
                      EnterElement "div" "elem"
                        {| staticContent := true; slotContent := false |};
                      EnterFunction "inner" None] fresh)))
    as (s' & H1 & H2 & _); [by vm_compute|by vm_compute|by vm_compute|].
  eexists _, s'. split; [exact H1|exact H2].
Defined.
(** * The tokenizer, token after token *)

Section Tokens.
Import EndorphinParser.


End Tokens.

(** * The AST descriptors *)

Section Descriptors.
Import Template.

(** X18. [new ENDAttribute(name, value)] and [new ENDVariable(name,
    value)] raise for a [null] name, and for a [null] value whenever the
    name has a location; otherwise they return a node. The node gets a
    location exactly when both the name and the value have one, and it
    then runs from the start of the name to the end of the value: the end
    of the name is never used. *)
Theorem attribute_location (c : class) (name : ENDAttributeName)
    (value : ENDAttributeValue) :
  (construct c name value = None
   ↔ name = None ∨ (∃ n l, name = Some n ∧ loc n = Some l ∧ value = None))
  ∧ ∀ a, construct c name value = Some a →
      attrType a = type c ∧ attrName a = name ∧ attrValue a = value
      ∧ ∀ l, attrLoc a = Some l
             ↔ ∃ n v nameLoc valueLoc,
                 name = Some n ∧ value = Some v
                 ∧ loc n = Some nameLoc ∧ loc v = Some valueLoc
                 ∧ l = {| start := start nameLoc; end_ := end_ valueLoc |}.
Proof.
  unfold construct.
  destruct name as [[[nameLoc|]]|], value as [[[valueLoc|]]|]; simpl.
  all: split;
    [split;
     [intros H; simplify_eq; eauto 8
     |intros [H|(n & l & H1 & H2 & H3)]; simplify_eq/=; done]
    |].
  all: intros a Ha; simplify_eq/=; do 3 (split; [done|]).
  all: intros l; split;
    [intros H; simplify_eq; eauto 10
    |intros (n & v & nl & vl & H1 & H2 & H3 & H4 & ->); by simplify_eq/=].
Qed.

End Descriptors.

Lemma attribute_location_witness :
  ∃ a, Template.newENDAttribute
         (Some {| Template.loc := Some {| Template.start := 4; Template.end_ := 9 |} |})
         (Some {| Template.loc := Some {| Template.start := 11; Template.end_ := 16 |} |})
       = Some a
    ∧ Template.attrLoc a = Some {| Template.start := 4; Template.end_ := 16 |}.
Proof.
  eexists. split; [reflexivity|].
  apply (proj2 (attribute_location Template.ENDAttribute
                  (Some {| Template.loc :=
                             Some {| Template.start := 4; Template.end_ := 9 |} |})
                  (Some {| Template.loc :=
                             Some {| Template.start := 11; Template.end_ := 16 |} |}))
           _ eq_refl).
  by eexists _, _, _, _.
Defined.
(** * The scope argument *)

Section ScopeArgument.
Context {U : Utils}.
Import CompileScope.

Lemma step_scopeArgOnce c s v s' :
  step c s = Some (v, s') → scopeArgOnce s → scopeArgOnce s'.
Proof.
  unfold scopeArgOnce. intros Hstep HP.
  destruct c; simpl in Hstep;
    try match type of Hstep with
        | context [compile s] =>
            unfold ret in Hstep;
            destruct (compile_warnings s) as [w Hw];
            destruct (compile s) as [out s1]; simpl in *;
            injection Hstep as <- <-; by rewrite Hw
        end.
  all: unfold_methods Hstep.
  all: destruct s; simpl in *.
  all: method_cases.
  all: try done.
  all: try (apply Forall_cons in HP as [Hf HP]).
  all: try done.
  all: try (apply Forall_cons; split; [|done]; simpl; by auto).
  all: try (apply Forall_cons; split; [by left|]; done).
  all: assert (Hadd : ∀ node, add (", " +:+ Options.scope options0) node
                              = node ++ [", " +:+ Options.scope options0])
         by (intros; unfold add; by rewrite sapp_String).
  all: rewrite ?Hadd in *.
  all: repeat match goal with
              | H : (length (_ ++ [_]) =? 0) = true |- _ =>
                  rewrite length_app, Nat.add_1_r in H; done
              end.
  all: match goal with
       | H : (length ?l =? 0) = true |- _ => destruct l eqn:?; [|done]
       end.
  all: apply Forall_cons; split; [right; simpl; congruence|done].
Qed.

(** X20. In a scope driven from its construction, the signature of a
    function never names the scope twice: the scope argument of every
    open function context is empty or is the single text [", "] followed
    by the scope symbol, however many calls have marked the scope as
    used. *)
Theorem scope_argument_at_most_once (defaultOptions : Options.t) (options : Options.user)
    (cs : list call) (vs : list value) (s' : CompileScope.t) :
  run cs (constructor defaultOptions options) = Some (vs, s') →
  scopeArgOnce s'.
Proof.
  intros Hrun.
  refine (run_invariant scopeArgOnce _ cs _ vs s' Hrun _).
  - intros c s v s1. apply step_scopeArgOnce.
  - apply Forall_nil_2.
Qed.
End ScopeArgument.

Lemma scope_argument_at_most_once_witness :
  ∃ vs s',
    run (U := fixtureUtils)
      [EnterFunction "template" None; GetScope; ScopeSymbol "a"; MarkScopeAsUsed] fresh
    = Some (vs, s')
    ∧ scopeArgOnce s'.
Proof.
  destruct (run (U := fixtureUtils)
      [EnterFunction "template" None; GetScope; ScopeSymbol "a"; MarkScopeAsUsed] fresh)
    as [[vs s']|] eqn:Hrun; [|by vm_compute in Hrun].
  exists vs, s'. split; [done|].
  exact (scope_argument_at_most_once (U := fixtureUtils) Options.defaultOptions
           Options.no_options _ vs s' Hrun).
Defined.
(** * The two snapshots of requiresInjector *)

Section Snapshots.
Context {U : Utils}.
Import CompileScope.

(** X21. The two versions of [requiresInjector()] compared, in a state
    with a current function context. While that function has an element
    open, the later version answers true wherever the earlier one did,
    and also inside a component and for slot content. While it has none
    and no enclosing function has one, both answer whether the function
    has an injector. While only an enclosing function has one, the
    earlier version answers for that outer element, the later one for
    the injector of the function. *)
Theorem requiresInjector_versions (s : CompileScope.t) (f : FunctionContext.t)
    (parent : list FunctionContext.t) :
  func s = f :: parent →
  ∃ earlier later,
    EarlierScope.requiresInjector s = Some earlier
    ∧ requiresInjector s = Some later
    ∧ match currentElement s, element s with
      | Some e, _ =>
          earlier = negb (staticContent (ElementContext.stats e))
          ∧ later = inComponent s || earlier || slotContent (ElementContext.stats e)
      | None, Some (outer, _) =>
          earlier = negb (staticContent (ElementContext.stats outer))
          ∧ later = JS.truthy (FunctionContext.injector f)
      | None, None =>
          earlier = JS.truthy (FunctionContext.injector f) ∧ later = earlier
      end.
Proof.
  intros Hf.
  unfold EarlierScope.requiresInjector, requiresInjector, currentElement, element.
  rewrite Hf. simpl.
  destruct (FunctionContext.element f) as [|e p] eqn:He; simpl.
  - destruct (element_of parent) as [[outer around]|]; by eexists _, _.
  - by eexists _, _.
Qed.
End Snapshots.

Lemma requiresInjector_versions_witness :
  ∃ earlier later,
    EarlierScope.requiresInjector
      (snd (CompileScope.enterFunction "template" (Some "injector") fresh))
    = Some earlier
    ∧ CompileScope.requiresInjector
        (snd (CompileScope.enterFunction "template" (Some "injector") fresh))
      = Some later
    ∧ later = earlier.
Proof.
  destruct (requiresInjector_versions
              (snd (CompileScope.enterFunction "template" (Some "injector") fresh))
              _ _ eq_refl) as (earlier & later & H1 & H2 & H3).
  exists earlier, later. split; [exact H1|]. split; [exact H2|].
  exact (proj2 H3).
Defined.
